(** * autognc/image-scraping: the streaming search pipeline

    A shallow embedding of [nasa_api.py] (the paginated, streaming search
    client) and of [main.py] (the downstream driver that spawns one
    [rekognize] task per new record).

    The program is single-threaded asyncio code.  Pure pieces (tier
    normalisation, record construction, the body of the driver loop, the
    processed-set loader, the context-manager protocol) are functions; the
    tasks themselves are a labelled transition system whose atomic steps are
    the stretches of code between two suspension points, scheduled in any
    order, with every remote response chosen by the environment. *)

From Stdlib Require Import ZArith String Ascii List Lia Permutation.
From stdpp Require Import base strings gmap list.

#[local] Set Warnings "-clear-no-such-hyp".

Local Open Scope string_scope.
Local Open Scope Z_scope.
Local Open Scope list_scope.

(** ** Python values *)

(** Exceptions the modelled code can raise. *)
Inductive exn :=
| HttpError        (* resp.raise_for_status() *)
| IndexError       (* item["data"][0] on an empty list *)
| KeyError         (* d[k] on a missing key *)
| TypeError        (* subscripting / hashing a value of the wrong type *)
| RuntimeError     (* StopIteration escaping a coroutine *)
| AttributeError   (* None.close() *)
| ZeroDivisionError
| ClientError.     (* raised by the Rekognition client *)

Inductive res (A : Type) :=
| Ret (a : A)
| Raise (e : exn).
Arguments Ret {A} a.
Arguments Raise {A} e.

(** JSON values stored in a metadata dictionary: a scalar string, or the
    size-keyed dictionary that [_get_item] stores under ["image_urls"]. *)
Inductive value :=
| VStr (s : string)
| VDict (m : gmap string string).

(** Objects travelling through the [asyncio.Queue]. *)
Inductive obj :=
| ONone
| OInt (n : Z)
| ODict (d : gmap string value).

(** The outcome of [session.get(...)] followed by [raise_for_status()]. *)
Inductive response (A : Type) :=
| Ok (body : A)
| NotOk.
Arguments Ok {A} body.
Arguments NotOk {A}.

(** ** The search API's JSON *)

Record link := { link_rel : string; link_href : string }.

(** One element of [collection.items]: [item["data"]] and [item["href"]]. *)
Record entry := { item_data : list (gmap string value); item_href : string }.

(** [collection] of one page. *)
Record page := {
  page_links : list link;
  total_hits : Z;            (* data["metadata"]["total_hits"] *)
  page_items : list entry
}.

(** ** Strings *)

(** Python truthiness of [str] and of [Optional[str]]. *)
Definition str_truthy (s : string) : bool :=
  match s with EmptyString => false | String _ _ => true end.

Definition opt_truthy (o : option string) : bool :=
  match o with None => false | Some s => str_truthy s end.

(** [key in u] on strings. *)
Fixpoint contains (key u : string) : bool :=
  if String.prefix key u then true
  else match u with
       | EmptyString => false
       | String _ u' => contains key u'
       end.

(** [s.split(c)] for a one-character separator: never empty. *)
Fixpoint split_on (c : ascii) (s : string) : list string :=
  match s with
  | EmptyString => [EmptyString]
  | String a s' =>
      if Ascii.eqb a c then EmptyString :: split_on c s'
      else match split_on c s' with
           | [] => [String a EmptyString]
           | w :: ws => String a w :: ws
           end
  end.

(** [s[n:]] for [n >= 0]. *)
Fixpoint drop_chars (n : nat) (s : string) : string :=
  match n, s with
  | O, _ => s
  | S n', String _ s' => drop_chars n' s'
  | S _, EmptyString => EmptyString
  end.

(** ** nasa_api.py: [_get_item] *)

Definition BASE_URL : string := "https://images-api.nasa.gov".

(** The query string is [urllib.parse.urlencode(kwargs)]; the encoder is a
    library function and is passed in already applied. *)
Definition search_url (query : string) : string :=
  BASE_URL +:+ "/search?" +:+ query.

Definition SIZE_KEYS : list string :=
  ["orig"; "large"; "medium"; "small"; "thumb"].

(** [next((u for u in data if key in u), None)] *)
Definition first_with (key : string) (data : list string) : option string :=
  List.find (contains key) data.

(** One iteration of the [for key in [...]] loop. *)
Definition add_size (data : list string) (m : gmap string string) (key : string)
  : gmap string string :=
  match first_with key data with
  | Some url => if str_truthy url then <[key := url]> m else m
  | None => m
  end.

Definition image_urls (data : list string) : gmap string string :=
  fold_left (add_size data) SIZE_KEYS ∅.

(** [_get_item] up to its [queue.put]: the record it enqueues, or the
    exception that ends the task.  [resp] is the asset manifest served for
    [item["href"]]. *)
Definition _get_item (item : entry) (resp : response (list string))
  : res (gmap string value) :=
  match item_data item with
  | [] => Raise IndexError
  | d :: _ =>
      match resp with
      | NotOk => Raise HttpError
      | Ok data => Ret (<["image_urls" := VDict (image_urls data)]> d)
      end
  end.

(** [next((url["href"] for url in data["links"] if url["rel"] == "next"), None)] *)
Definition next_href (links : list link) : option string :=
  link_href <$> List.find (fun l => String.eqb (link_rel l) "next") links.

(** ** nasa_api.py: the context manager of [NASAApi] *)

(** [aiohttp.ClientSession] objects live in a heap; an object is identified
    by its creation rank, and [closed] logs the objects on which [close()]
    has been awaited. *)
Record heap := { created : nat; closed : list nat }.

Record api := {
  concurrency_limit : Z;
  requests_per_second : Z;
  (* AsyncLimiter(max_rate, time_period): the period is the quotient of the
     two components, kept as a fraction *)
  rate_limiter : Z * (Z * Z);
  session : option nat;
  _entered_count : Z
}.

Definition __init__ (concurrency_limit requests_per_second : Z) : res api :=
  if requests_per_second =? 0 then Raise ZeroDivisionError
  else Ret {| concurrency_limit := concurrency_limit;
              requests_per_second := requests_per_second;
              rate_limiter := (concurrency_limit, (concurrency_limit, requests_per_second));
              session := None;
              _entered_count := 0 |}.

Definition set_session (o : option nat) (a : api) : api :=
  {| concurrency_limit := concurrency_limit a;
     requests_per_second := requests_per_second a;
     rate_limiter := rate_limiter a;
     session := o;
     _entered_count := _entered_count a |}.

Definition set_entered (n : Z) (a : api) : api :=
  {| concurrency_limit := concurrency_limit a;
     requests_per_second := requests_per_second a;
     rate_limiter := rate_limiter a;
     session := session a;
     _entered_count := n |}.

(** [self.session = aiohttp.ClientSession()] *)
Definition open (ah : api * heap) : api * heap :=
  let (a, h) := ah in
  (set_session (Some (created h)) a,
   {| created := S (created h); closed := closed h |}).

Definition __aenter__ (ah : api * heap) : api * heap :=
  let (a, h) := open ah in
  (set_entered (_entered_count a + 1) a, h).

(** [await self.session.close()] *)
Definition close (ah : api * heap) : res (api * heap) :=
  let (a, h) := ah in
  match session a with
  | None => Raise AttributeError
  | Some id => Ret (a, {| created := created h; closed := closed h ++ [id] |})
  end.

Definition __aexit__ (ah : api * heap) : res (api * heap) :=
  let (a, h) := ah in
  let a' := set_entered (_entered_count a - 1) a in
  if _entered_count a' =? 0 then close (a', h) else Ret (a', h).

(** A program of [async with] scopes on one [NASAApi] object. *)
Inductive scope_op := Enter | Exit.

Fixpoint scopes (ops : list scope_op) (ah : api * heap) : res (api * heap) :=
  match ops with
  | [] => Ret ah
  | Enter :: ops' => scopes ops' (__aenter__ ah)
  | Exit :: ops' =>
      match __aexit__ ah with
      | Ret ah' => scopes ops' ah'
      | Raise e => Raise e
      end
  end.

(** The module-level instance. *)
Definition CONCURRENCY_LIMIT : Z := 5.
Definition REQUESTS_PER_SECOND : Z := 5.
Definition NASA_API : res api := __init__ CONCURRENCY_LIMIT REQUESTS_PER_SECOND.

(** ** main.py: the pure parts *)

Definition OUTPUT_PATH : string := "/home/black/TSL/nasa_images".

Definition last_or {A} (d : A) (l : list A) : A := List.last l d.

(** [os.path.basename] *)
Definition basename (p : string) : string := last_or EmptyString (split_on "/" p).

(** [glob.glob(os.path.join(OUTPUT_PATH, "image_*"))] over the names found in
    the output directory. *)
Definition glob_images (dir : list string) : list string :=
  List.map (fun n => OUTPUT_PATH +:+ "/" +:+ n)
           (List.filter (String.prefix "image_") dir).

(** [os.path.basename(s)[6:].split(".")[0]] *)
Definition img_id_of_path (s : string) : string :=
  List.hd EmptyString (split_on "." (drop_chars 6 (basename s))).

Definition load_img_ids (dir : list string) : gset string :=
  list_to_set (List.map img_id_of_path (glob_images dir)).

Definition PRIORITY : list string :=
  ["medium"; "small"; "large"; "orig"; "thumb"].

(** [key = next(k for k in keys if k in item["image_urls"])] followed by
    [url = item["image_urls"][key]].  The generator has no default: when no
    key matches, [StopIteration] escapes the coroutine as [RuntimeError]. *)
Definition select_url (item : gmap string value) : res string :=
  match item !! "image_urls" with
  | None => Raise KeyError
  | Some (VDict m) =>
      match List.find (fun k => bool_decide (is_Some (m !! k))) PRIORITY with
      | None => Raise RuntimeError
      | Some k => match m !! k with Some url => Ret url | None => Raise KeyError end
      end
  | Some (VStr s) =>
      match List.find (fun k => contains k s) PRIORITY with
      | None => Raise RuntimeError
      | Some _ => Raise TypeError
      end
  end.

(** The two files written by one [rekognize] call; the formatted names
    [meta_{img_id}.json] and [image_{img_id}.{ext}] are kept symbolic. *)
Inductive file :=
| MetaFile (img_id : value)
| ImageFile (img_id : value) (ext : string).

(** [rekognize]: the files it writes, or the exception that ends the task.
    [img] is the response to the image download (its status is checked
    before the body is read) and [labels] the outcome of
    [rk.detect_labels]. *)
Definition rekognize (item : gmap string value) (img labels : response string)
  : res (list file) :=
  match select_url item with
  | Raise e => Raise e
  | Ret url =>
      match img with
      | NotOk => Raise HttpError
      | Ok _ =>
          match labels with
          | NotOk => Raise ClientError
          | Ok _ =>
              match item !! "nasa_id" with
              | None => Raise KeyError
              | Some img_id =>
                  Ret [MetaFile img_id;
                       ImageFile img_id (last_or EmptyString (split_on "." url))]
              end
          end
      end
  end.

(** One iteration of the [async for item in search] loop of [main]:
    the new processed set and the items for which a [rekognize] task is
    created (none or one).  A [dict] identifier is unhashable. *)
Definition loop_body (ids : gset string) (item : gmap string value)
  : res (gset string * list (gmap string value)) :=
  match item !! "nasa_id" with
  | None => Raise KeyError
  | Some (VDict _) => Raise TypeError
  | Some (VStr id) =>
      if bool_decide (id ∈ ids) then Ret (ids, [])
      else Ret ({[id]} ∪ ids, [item])
  end.

(** The whole loop over a finite stream, for reference. *)
Fixpoint drive (ids : gset string) (stream : list (gmap string value))
  : res (gset string * list (gmap string value)) :=
  match stream with
  | [] => Ret (ids, [])
  | item :: rest =>
      match loop_body ids item with
      | Raise e => Raise e
      | Ret (ids', new) =>
          match drive ids' rest with
          | Raise e => Raise e
          | Ret (ids'', more) => Ret (ids'', new ++ more)
          end
      end
  end.

(** ** The task system *)

Inductive status :=
| Pending
| Done
| Failed (e : exn).

(** [_get_pages]: at the head of its [while next_page] loop (the join is
    reached from there when [next_page] is falsy), returned, or ended by an
    exception. *)
Inductive walker_state :=
| WLoop (next_page : option string) (first : bool)
| WReturned
| WRaised (e : exn).

(** [main]: inside [search] awaiting the first queue item, iterating over the
    [ResultIterator(queue, total)], awaiting [gather] after the loop,
    returned, or ended by an exception. *)
Inductive main_state :=
| MSearch
| MIter (total : obj)
| MGather
| MReturned
| MRaised (e : exn).

Record state := {
  queue : list obj;                             (* the asyncio.Queue of search *)
  walker : walker_state;                        (* the _get_pages task *)
  tasks : list (entry * status);                (* tasks of _get_pages *)
  main : main_state;
  img_ids : gset string;
  rk_tasks : list (gmap string value * status); (* tasks of main *)
  disk : list file
}.

(** What a run shows to an observer. *)
Inductive event :=
| EPage (url : string) (resp : response page)             (* session.get(next_page) *)
| EPut (v : obj)                                          (* queue.put(v) *)
| ESpawn (item : entry)                                   (* create_task(_get_item(queue, item)) *)
| EDetail (item : entry) (resp : response (list string))  (* session.get(item["href"]) *)
| EGet (v : obj)                                          (* queue.get() returned v *)
| EStop                                                   (* StopAsyncIteration *)
| ERekognize (item : gmap string value).                  (* create_task(rekognize(..., item)) *)

(** What the event loop and the environment choose at each step: the task to
    resume and, for a task blocked on the network, the response it gets. *)
Inductive action :=
| APage (resp : response page)
| AGather
| AGatherRaise (i : nat)
| AItem (i : nat) (resp : response (list string))
| ASearch
| ANext
| AMainGather
| AMainGatherRaise (j : nat)
| ARekognize (j : nat) (img labels : response string).

Definition spawn {A} (xs : list A) : list (A * status) :=
  (fun x => (x, Pending)) <$> xs.

Definition is_done (t : status) : bool :=
  match t with Done => true | _ => false end.

Definition all_done {A} (ts : list (A * status)) : bool :=
  forallb (fun t => is_done (snd t)) ts.

(** [asyncio.run(main())] tears the loop down as soon as [main] ends. *)
Definition running (s : state) : bool :=
  match main s with
  | MReturned | MRaised _ => false
  | _ => true
  end.

Definition init (query : string) (dir : list string) : state :=
  {| queue := [];
     walker := WLoop (Some (search_url query)) true;
     tasks := [];
     main := MSearch;
     img_ids := load_img_ids dir;
     rk_tasks := [];
     disk := [] |}.

Definition with_fetch (q : list obj) (w : walker_state) (ts : list (entry * status))
    (s : state) : state :=
  {| queue := q; walker := w; tasks := ts; main := main s;
     img_ids := img_ids s; rk_tasks := rk_tasks s; disk := disk s |}.

Definition with_main (q : list obj) (m : main_state) (ids : gset string)
    (ws : list (gmap string value * status)) (fs : list file) (s : state) : state :=
  {| queue := q; walker := walker s; tasks := tasks s; main := m;
     img_ids := ids; rk_tasks := ws; disk := fs |}.

(** One iteration of [while next_page] in [_get_pages]. *)
Definition get_pages_iter (resp : response page) (s : state)
  : option (state * list event) :=
  match walker s with
  | WLoop (Some url) first =>
      if str_truthy url then
        match resp with
        | NotOk =>
            Some (with_fetch (queue s) (WRaised HttpError) (tasks s) s,
                  [EPage url NotOk])
        | Ok data =>
            let total := if first then [OInt (total_hits data)] else [] in
            Some (with_fetch (queue s ++ total)
                             (WLoop (next_href (page_links data)) false)
                             (tasks s ++ spawn (page_items data)) s,
                  EPage url (Ok data) :: (EPut <$> total)
                    ++ (ESpawn <$> page_items data))
        end
      else None
  | _ => None
  end.

(** [await asyncio.gather( *tasks )] returning, then [queue.put(None)]. *)
Definition get_pages_gather (s : state) : option (state * list event) :=
  match walker s with
  | WLoop next_page _ =>
      if negb (opt_truthy next_page) && all_done (tasks s) then
        Some (with_fetch (queue s ++ [ONone]) WReturned (tasks s) s, [EPut ONone])
      else None
  | _ => None
  end.

(** [gather] re-raising the exception of the failed task [i]. *)
Definition get_pages_gather_raise (i : nat) (s : state) : option (state * list event) :=
  match walker s with
  | WLoop next_page _ =>
      if opt_truthy next_page then None
      else match tasks s !! i with
           | Some (_, Failed e) =>
               Some (with_fetch (queue s) (WRaised e) (tasks s) s, [])
           | _ => None
           end
  | _ => None
  end.

(** The [i]-th [_get_item] task runs to its end. *)
Definition get_item_task (i : nat) (resp : response (list string)) (s : state)
  : option (state * list event) :=
  match tasks s !! i with
  | Some (item, Pending) =>
      let fetched := match item_data item with [] => [] | _ => [EDetail item resp] end in
      match _get_item item resp with
      | Ret result =>
          Some (with_fetch (queue s ++ [ODict result]) (walker s)
                           (<[i := (item, Done)]> (tasks s)) s,
                fetched ++ [EPut (ODict result)])
      | Raise e =>
          Some (with_fetch (queue s) (walker s)
                           (<[i := (item, Failed e)]> (tasks s)) s,
                fetched)
      end
  | _ => None
  end.

(** [total = await queue.get(); return ResultIterator(queue, total)] *)
Definition search (s : state) : option (state * list event) :=
  match main s, queue s with
  | MSearch, v :: q =>
      Some (with_main q (MIter v) (img_ids s) (rk_tasks s) (disk s) s, [EGet v])
  | _, _ => None
  end.

(** [ResultIterator.__anext__] and, when it returns an item, the loop body. *)
Definition main_next (s : state) : option (state * list event) :=
  match main s, queue s with
  | MIter total, ONone :: q =>
      Some (with_main q MGather (img_ids s) (rk_tasks s) (disk s) s,
            [EGet ONone; EStop])
  | MIter total, OInt n :: q =>
      (* item["nasa_id"] on an int *)
      Some (with_main q (MRaised TypeError) (img_ids s) (rk_tasks s) (disk s) s,
            [EGet (OInt n)])
  | MIter total, ODict item :: q =>
      match loop_body (img_ids s) item with
      | Ret (ids, new) =>
          Some (with_main q (MIter total) ids (rk_tasks s ++ spawn new) (disk s) s,
                EGet (ODict item) :: (ERekognize <$> new))
      | Raise e =>
          Some (with_main q (MRaised e) (img_ids s) (rk_tasks s) (disk s) s,
                [EGet (ODict item)])
      end
  | _, _ => None
  end.

(** [await asyncio.gather( *tasks )] at the end of [main]. *)
Definition main_gather (s : state) : option (state * list event) :=
  match main s with
  | MGather =>
      if all_done (rk_tasks s) then
        Some (with_main (queue s) MReturned (img_ids s) (rk_tasks s) (disk s) s, [])
      else None
  | _ => None
  end.

Definition main_gather_raise (j : nat) (s : state) : option (state * list event) :=
  match main s, rk_tasks s !! j with
  | MGather, Some (_, Failed e) =>
      Some (with_main (queue s) (MRaised e) (img_ids s) (rk_tasks s) (disk s) s, [])
  | _, _ => None
  end.

(** The [j]-th [rekognize] task runs to its end. *)
Definition rekognize_task (j : nat) (img labels : response string) (s : state)
  : option (state * list event) :=
  match rk_tasks s !! j with
  | Some (item, Pending) =>
      match rekognize item img labels with
      | Ret files =>
          Some (with_main (queue s) (main s) (img_ids s)
                          (<[j := (item, Done)]> (rk_tasks s)) (disk s ++ files) s, [])
      | Raise e =>
          Some (with_main (queue s) (main s) (img_ids s)
                          (<[j := (item, Failed e)]> (rk_tasks s)) (disk s) s, [])
      end
  | _ => None
  end.

Definition exec (s : state) (a : action) : option (state * list event) :=
  if running s then
    match a with
    | APage resp => get_pages_iter resp s
    | AGather => get_pages_gather s
    | AGatherRaise i => get_pages_gather_raise i s
    | AItem i resp => get_item_task i resp s
    | ASearch => search s
    | ANext => main_next s
    | AMainGather => main_gather s
    | AMainGatherRaise j => main_gather_raise j s
    | ARekognize j img labels => rekognize_task j img labels s
    end
  else None.

(** A schedule, run from [s]. *)
Fixpoint exec_all (s : state) (acts : list action) : option (state * list event) :=
  match acts with
  | [] => Some (s, [])
  | a :: acts' =>
      match exec s a with
      | None => None
      | Some (s', evs) =>
          match exec_all s' acts' with
          | None => None
          | Some (s'', evs') => Some (s'', evs ++ evs')
          end
      end
  end.

(** [run s0 tr s]: some schedule leads from [s0] to [s] and shows [tr]. *)
Inductive run (s0 : state) : list event -> state -> Prop :=
| run_nil : run s0 [] s0
| run_snoc tr s a s' evs :
    run s0 tr s -> exec s a = Some (s', evs) -> run s0 (tr ++ evs) s'.

(** Projections of a trace. *)
Definition puts (tr : list event) : list obj :=
  omap (fun e => match e with EPut v => Some v | _ => None end) tr.

Definition gets (tr : list event) : list obj :=
  omap (fun e => match e with EGet v => Some v | _ => None end) tr.

Definition spawned (tr : list event) : list entry :=
  omap (fun e => match e with ESpawn i => Some i | _ => None end) tr.

Definition pages (tr : list event) : list page :=
  omap (fun e => match e with EPage _ (Ok p) => Some p | _ => None end) tr.

Definition details (tr : list event) : list (entry * response (list string)) :=
  omap (fun e => match e with EDetail i r => Some (i, r) | _ => None end) tr.

Definition rekognized (tr : list event) : list (gmap string value) :=
  omap (fun e => match e with ERekognize i => Some i | _ => None end) tr.

(** The records among a list of queue objects. *)
Definition records (vs : list obj) : list (gmap string value) :=
  omap (fun v => match v with ODict d => Some d | _ => None end) vs.

(** The identifier of a record, [item["nasa_id"]]. *)
Definition nasa_id (d : gmap string value) : option value := d !! "nasa_id".

(** The identifier of a search entry, [item["data"][0]["nasa_id"]]. *)
Definition entry_id (item : entry) : option value :=
  match item_data item with
  | [] => None
  | d :: _ => d !! "nasa_id"
  end.

(** The (entry, record) pairs of the detail fetches that made a record. *)
Definition made (tr : list event) : list (entry * gmap string value) :=
  omap (fun '(item, resp) =>
          match _get_item item resp with
          | Ret result => Some (item, result)
          | Raise _ => None
          end) (details tr).

(** The first queue item: the total of the first page fetched. *)
Definition total_part (ps : list page) : list obj :=
  match ps with
  | [] => []
  | p :: _ => [OInt (total_hits p)]
  end.

(** The last queue item: the Sentinel, put when [_get_pages] returns. *)
Definition sentinel_part (w : walker_state) : list obj :=
  match w with
  | WReturned => [ONone]
  | _ => []
  end.

(** The size found for [key], as the loop of [_get_item] sees it. *)
Definition size_url (data : list string) (key : string) : option string :=
  match first_with key data with
  | Some url => if str_truthy url then Some url else None
  | None => None
  end.

Definition is_failed (t : status) : bool :=
  match t with Failed _ => true | _ => false end.

Definition searching (m : main_state) : bool :=
  match m with MSearch => true | _ => false end.

Definition iterating (m : main_state) : bool :=
  match m with MSearch | MIter _ => true | _ => false end.

(** ** Invariants of the task system *)

(** What holds of the fetch pipeline after any run showing the trace [tr]
    and ending in [s]. *)
Record inv (query : string) (tr : list event) (s : state) : Prop := {
  (* the queue is FIFO: what was put is what was got, then what is left *)
  inv_fifo : puts tr = gets tr ++ queue s;
  (* the values put: the total, the records made, the Sentinel *)
  inv_puts : puts tr = total_part (pages tr) ++ (ODict <$> (made tr).*2)
                         ++ sentinel_part (walker s);
  inv_first : forall np first, walker s = WLoop np first ->
              first = match pages tr with [] => true | _ => false end;
  inv_start : pages tr = [] ->
              walker s = WLoop (Some (search_url query)) true \/
              walker s = WRaised HttpError;
  (* one task per entry of every page *)
  inv_spawned : (tasks s).*1 = spawned tr;
  inv_entries : spawned tr = concat (page_items <$> pages tr);
  (* one record made per task that is done *)
  inv_made : (made tr).*1 ≡ₚ (filter (fun t => is_done t.2) (tasks s)).*1;
  inv_returned : walker s = WReturned -> all_done (tasks s) = true;
  inv_page_fail : (exists url, EPage url NotOk ∈ tr) -> walker s = WRaised HttpError;
  inv_detail_fail : (exists item, EDetail item NotOk ∈ tr) ->
                    exists i item e, tasks s !! i = Some (item, Failed e);
  inv_search : searching (main s) = true -> gets tr = [];
  inv_total : searching (main s) = false ->
              exists p, head (pages tr) = Some p /\
                        head (gets tr) = Some (OInt (total_hits p));
  inv_iter : forall t, main s = MIter t -> head (gets tr) = Some t;
  inv_stop : ONone ∈ gets tr -> iterating (main s) = false
}.
Arguments inv_fifo {query tr s} _.
Arguments inv_puts {query tr s} _.
Arguments inv_first {query tr s} _.
Arguments inv_start {query tr s} _.
Arguments inv_spawned {query tr s} _.
Arguments inv_entries {query tr s} _.
Arguments inv_made {query tr s} _.
Arguments inv_returned {query tr s} _.
Arguments inv_page_fail {query tr s} _.
Arguments inv_detail_fail {query tr s} _.
Arguments inv_search {query tr s} _.
Arguments inv_total {query tr s} _.
Arguments inv_iter {query tr s} _.
Arguments inv_stop {query tr s} _.

(** What holds of the driver loop of [main]; [dir] is the listing of the
    output directory at start. *)
Record dinv (dir : list string) (tr : list event) (s : state) : Prop := {
  (* the processed set only grows *)
  d_ids : load_img_ids dir ⊆ img_ids s;
  (* a rekognize task was created for a delivered record whose identifier
     was not processed before, and is marked in the set *)
  d_rk : forall item, item ∈ (rk_tasks s).*1 ->
         exists id, nasa_id item = Some (VStr id) /\ id ∈ img_ids s /\
                    (id ∉ load_img_ids dir) /\ ODict item ∈ gets tr;
  d_nodup : NoDup (nasa_id <$> (rk_tasks s).*1);
  d_rekognized : (rk_tasks s).*1 = rekognized tr;
  d_returned : main s = MReturned -> all_done (rk_tasks s) = true
}.
Arguments d_ids {dir tr s} _.
Arguments d_rk {dir tr s} _.
Arguments d_nodup {dir tr s} _.
Arguments d_rekognized {dir tr s} _.
Arguments d_returned {dir tr s} _.

(** ** A concrete search, for the examples *)

(** The state and the trace a schedule leads to (the start state and the
    empty trace when the schedule cannot be run). *)
Definition outcome (s0 : state) (acts : list action) : state * list event :=
  default (s0, []) (exec_all s0 acts).

Definition demo_entry (id : string) : entry :=
  {| item_data := [{["nasa_id" := VStr id]}];
     item_href := "https://images-assets.nasa.gov/image/" +:+ id +:+ "/collection.json" |}.

Definition demo_manifest (id : string) : list string :=
  ["https://images-assets.nasa.gov/image/" +:+ id +:+ "/" +:+ id +:+ "~orig.jpg";
   "https://images-assets.nasa.gov/image/" +:+ id +:+ "/" +:+ id +:+ "~thumb.jpg";
   "https://images-assets.nasa.gov/image/" +:+ id +:+ "/metadata.json"].

Definition demo_record (id : string) : gmap string value :=
  <["image_urls" := VDict (image_urls (demo_manifest id))]> {["nasa_id" := VStr id]}.

(** Page 1: total 3, entries A and B, a next page; page 2: entry C. *)
Definition demo_page1 : page :=
  {| page_links := [{| link_rel := "next";
                       link_href := "https://images-api.nasa.gov/search?q=dock&page=2" |}];
     total_hits := 3;
     page_items := [demo_entry "A"; demo_entry "B"] |}.

Definition demo_page2 : page :=
  {| page_links := [{| link_rel := "prev";
                       link_href := "https://images-api.nasa.gov/search?q=dock&page=1" |}];
     total_hits := 3;
     page_items := [demo_entry "C"] |}.

(** The search and the iteration, to the end of the stream: B is delivered
    before A, C last. *)
Definition demo_fetch_acts : list action :=
  [APage (Ok demo_page1); ASearch; AItem 1 (Ok (demo_manifest "B"));
   APage (Ok demo_page2); AItem 0 (Ok (demo_manifest "A")); ANext;
   AItem 2 (Ok (demo_manifest "C")); AGather; ANext; ANext; ANext].

(** A complete run of [main] when A was processed before. *)
Definition demo_acts : list action :=
  demo_fetch_acts ++
  [ARekognize 0 (Ok "jpeg") (Ok "labels"); ARekognize 1 (Ok "jpeg") (Ok "labels");
   AMainGather].

(** The output directory of an earlier run that processed A only, and of one
    that processed everything. *)
Definition demo_dir_A : list string := ["image_A.jpg"; "meta_A.json"].

(** A run in which the detail fetch of A is refused, up to the join. *)
Definition demo_fail_acts : list action :=
  [APage (Ok demo_page1); ASearch; AItem 0 NotOk; AItem 1 (Ok (demo_manifest "B"));
   APage (Ok demo_page2); AItem 2 (Ok (demo_manifest "C")); ANext].

(** The same run taken on to the point where nothing can run any more:
    [gather] re-raises in [_get_pages], [main] consumes what is on the
    queue and the [rekognize] tasks end. *)
Definition demo_blocked_acts : list action :=
  demo_fail_acts ++
  [AGatherRaise 0; ANext;
   ARekognize 0 (Ok "jpeg") (Ok "labels"); ARekognize 1 (Ok "jpeg") (Ok "labels")].

(** A single page that lists the same entry twice. *)
Definition demo_page_twice : page :=
  {| page_links := []; total_hits := 2;
     page_items := [demo_entry "A"; demo_entry "A"] |}.

Definition demo_twice_acts : list action :=
  [APage (Ok demo_page_twice); ASearch; AItem 0 (Ok (demo_manifest "A"));
   AItem 1 (Ok (demo_manifest "A")); AGather; ANext; ANext; ANext].

(** A single page with entries A and B, where the detail document of A
    lists no image of any known size. *)
Definition demo_page_AB : page :=
  {| page_links := []; total_hits := 2;
     page_items := [demo_entry "A"; demo_entry "B"] |}.

Definition demo_no_size : list string :=
  ["https://images-assets.nasa.gov/image/A/metadata.json"].

Definition demo_no_size_acts : list action :=
  [APage (Ok demo_page_AB); ASearch; AItem 0 (Ok demo_no_size);
   AItem 1 (Ok (demo_manifest "B")); AGather; ANext; ANext; ANext;
   ARekognize 0 (Ok "jpeg") (Ok "labels")].

(** The record made from a detail document without any known size. *)
Definition demo_record_no_size : gmap string value :=
  <["image_urls" := VDict ∅]> {["nasa_id" := VStr "A"]}.

(** * Properties *)

(** ** Strings and tier normalisation *)

Lemma append_cons (c : ascii) (p t : string) :
  String c p +:+ t = String c (p +:+ t).
Proof. reflexivity. Qed.

Lemma prefix_spec (p s : string) :
  String.prefix p s = true <-> exists t, s = p +:+ t.
Proof.
  revert s. induction p as [|a p IH]; intros s; simpl.
  - split; [intros _; by exists s | by destruct s].
  - destruct s as [|b s]; simpl.
    + split; [done | intros [t Ht]; by rewrite append_cons in Ht].
    + destruct (Ascii.ascii_dec a b) as [->|Hab].
      * rewrite IH. split; intros [t Ht]; exists t; rewrite append_cons in *;
          congruence.
      * split; [done | intros [t Ht]; rewrite append_cons in Ht; congruence].
Qed.

Lemma contains_unfold (key u : string) :
  contains key u =
    if String.prefix key u then true
    else match u with
         | EmptyString => false
         | String _ u' => contains key u'
         end.
Proof. by destruct u. Qed.

(** [contains] is the substring test of Python's [in]. *)
Lemma contains_spec (key u : string) :
  contains key u = true <-> exists pre post, u = pre +:+ key +:+ post.
Proof.
  induction u as [|c u IH]; rewrite contains_unfold.
  - destruct (String.prefix key EmptyString) eqn:Hp.
    + apply prefix_spec in Hp as [t Ht]. split; [intros _ | done].
      by exists EmptyString, t.
    + split; [done |]. intros (pre & post & H).
      destruct pre; [| by rewrite append_cons in H].
      assert (String.prefix key EmptyString = true) by (apply prefix_spec; eauto).
      congruence.
  - destruct (String.prefix key (String c u)) eqn:Hp.
    + apply prefix_spec in Hp as [t Ht]. split; [intros _ | done].
      by exists EmptyString, t.
    + rewrite IH. split.
      * intros (pre & post & ->). by exists (String c pre), post.
      * intros (pre & post & H). destruct pre as [|c' pre].
        -- assert (String.prefix key (String c u) = true)
             by (apply prefix_spec; eauto).
           congruence.
        -- exists pre, post. rewrite append_cons in H. congruence.
Qed.

Lemma contains_truthy (key u : string) :
  str_truthy key = true -> contains key u = true -> str_truthy u = true.
Proof. destruct key, u; simpl; done. Qed.

Lemma first_with_None (key : string) (data : list string) :
  (forall u, u ∈ data -> contains key u = false) -> first_with key data = None.
Proof.
  intros H. unfold first_with.
  destruct (List.find (contains key) data) as [u|] eqn:Hf; [| done].
  apply List.find_some in Hf as [Hin Hc].
  apply list_elem_of_In in Hin. rewrite (H u Hin) in Hc. done.
Qed.

Lemma first_with_Some (key : string) (data : list string) :
  (exists u, u ∈ data /\ contains key u = true) ->
  exists u, first_with key data = Some u /\ u ∈ data /\ contains key u = true.
Proof.
  intros (u & Hin & Hc). unfold first_with.
  destruct (List.find (contains key) data) as [v|] eqn:Hf.
  - apply List.find_some in Hf as [Hv Hcv]. exists v.
    by rewrite list_elem_of_In.
  - apply list_elem_of_In in Hin.
    pose proof (List.find_none _ _ Hf u Hin) as Hn. simpl in Hn. congruence.
Qed.

Lemma fold_add_size_lookup (data : list string) (keys : list string)
    (m : gmap string string) (k : string) :
  fold_left (add_size data) keys m !! k =
    match size_url data k with
    | Some url => if bool_decide (k ∈ keys) then Some url else m !! k
    | None => m !! k
    end.
Proof.
  revert m. induction keys as [|k' keys IH]; intros m; simpl.
  - destruct (size_url data k); done.
  - rewrite IH.
    destruct (decide (k = k')) as [->|Hne].
    + unfold size_url, add_size.
      destruct (first_with k' data) as [url|]; [| done].
      destruct (str_truthy url); [| done].
      rewrite lookup_insert_eq, (bool_decide_eq_true_2 (k' ∈ k' :: keys)) by set_solver.
      by destruct (bool_decide (k' ∈ keys)).
    + assert (add_size data m k' !! k = m !! k) as ->.
      { unfold add_size. destruct (first_with k' data) as [url'|]; [| done].
        destruct (str_truthy url'); [| done]. by rewrite lookup_insert_ne. }
      destruct (size_url data k); [| done].
      apply (f_equal (fun b : bool => if b then _ else _)).
      apply bool_decide_ext. set_solver.
Qed.

Lemma image_urls_lookup (data : list string) (k : string) :
  image_urls data !! k =
    if bool_decide (k ∈ SIZE_KEYS) then size_url data k else None.
Proof.
  unfold image_urls. rewrite fold_add_size_lookup, lookup_empty.
  destruct (size_url data k); by destruct (bool_decide (k ∈ SIZE_KEYS)).
Qed.

Lemma get_item_nasa_id (item : entry) (data : list string) (r : gmap string value) :
  _get_item item (Ok data) = Ret r -> nasa_id r = entry_id item.
Proof.
  unfold _get_item, nasa_id, entry_id. destruct (item_data item) as [|d ?]; [done |].
  intros [= <-]. by rewrite lookup_insert_ne.
Qed.

(** C8: a detail document with "large" and "thumb" locations and none of the
    other sizes yields a record whose [image_urls] dictionary has exactly
    the keys "large" and "thumb", each bound to a location of the document
    that contains its key. *)
Theorem C8_large_and_thumb_only (item : entry) (d : gmap string value)
    (rest : list (gmap string value)) (data : list string) :
  item_data item = d :: rest ->
  (exists u, u ∈ data /\ contains "large" u = true) ->
  (exists u, u ∈ data /\ contains "thumb" u = true) ->
  (forall u, u ∈ data ->
     contains "orig" u = false /\ contains "medium" u = false /\
     contains "small" u = false) ->
  exists (m : gmap string string) (ul ut : string),
    _get_item item (Ok data) = Ret (<["image_urls" := VDict m]> d) /\
    dom m = {["large"; "thumb"]} /\
    m = {["large" := ul; "thumb" := ut]} /\
    ul ∈ data /\ contains "large" ul = true /\
    ut ∈ data /\ contains "thumb" ut = true.
Proof.
  intros Hd Hl Ht Hno.
  apply first_with_Some in Hl as (ul & Hfl & Hinl & Hcl).
  apply first_with_Some in Ht as (ut & Hft & Hint & Hct).
  assert (forall k, image_urls data !! k =
            ({["large" := ul; "thumb" := ut]} : gmap string string) !! k) as Hm.
  { intros k. rewrite image_urls_lookup. unfold size_url.
    destruct (decide (k = "large")) as [->|Hkl].
    { rewrite Hfl, (contains_truthy "large" ul) by done. done. }
    destruct (decide (k = "thumb")) as [->|Hkt].
    { rewrite Hft, (contains_truthy "thumb" ut) by done. done. }
    rewrite lookup_insert_ne, lookup_singleton_ne by done.
    case_bool_decide as Hk; [| done].
    assert (first_with k data = None) as ->; [| done].
    apply first_with_None. intros u Hu. destruct (Hno u Hu) as (? & ? & ?).
    unfold SIZE_KEYS in Hk. set_solver. }
  apply map_eq in Hm.
  exists (image_urls data), ul, ut. unfold _get_item. rewrite Hd.
  split_and!; try done.
  rewrite Hm. rewrite dom_insert_L, dom_singleton_L. set_solver.
Qed.

Lemma C8_large_and_thumb_only_witness :
  exists (m : gmap string string) (ul ut : string),
    _get_item {| item_data := [{["nasa_id" := VStr "a"]}]; item_href := "h" |}
              (Ok ["https://x/a~large.jpg"; "https://x/a~thumb.jpg"; "https://x/metadata.json"])
      = Ret (<["image_urls" := VDict m]> {["nasa_id" := VStr "a"]}) /\
    dom m = {["large"; "thumb"]} /\
    m = {["large" := ul; "thumb" := ut]} /\
    ul ∈ ["https://x/a~large.jpg"; "https://x/a~thumb.jpg"; "https://x/metadata.json"] /\
    contains "large" ul = true /\
    ut ∈ ["https://x/a~large.jpg"; "https://x/a~thumb.jpg"; "https://x/metadata.json"] /\
    contains "thumb" ut = true.
Proof.
  apply (C8_large_and_thumb_only _ {["nasa_id" := VStr "a"]} []).
  - reflexivity.
  - exists "https://x/a~large.jpg". split; [set_solver | reflexivity].
  - exists "https://x/a~thumb.jpg". split; [set_solver | reflexivity].
  - intros u Hu.
    repeat (apply elem_of_cons in Hu as [->|Hu]; [by vm_compute |]).
    by apply elem_of_nil in Hu.
Defined.

(** ** Traces *)

Lemma puts_app (t1 t2 : list event) : puts (t1 ++ t2) = puts t1 ++ puts t2.
Proof. apply omap_app. Qed.
Lemma gets_app (t1 t2 : list event) : gets (t1 ++ t2) = gets t1 ++ gets t2.
Proof. apply omap_app. Qed.
Lemma spawned_app (t1 t2 : list event) : spawned (t1 ++ t2) = spawned t1 ++ spawned t2.
Proof. apply omap_app. Qed.
Lemma pages_app (t1 t2 : list event) : pages (t1 ++ t2) = pages t1 ++ pages t2.
Proof. apply omap_app. Qed.
Lemma details_app (t1 t2 : list event) : details (t1 ++ t2) = details t1 ++ details t2.
Proof. apply omap_app. Qed.
Lemma rekognized_app (t1 t2 : list event) :
  rekognized (t1 ++ t2) = rekognized t1 ++ rekognized t2.
Proof. apply omap_app. Qed.
Lemma made_app (t1 t2 : list event) : made (t1 ++ t2) = made t1 ++ made t2.
Proof. unfold made. rewrite details_app. apply omap_app. Qed.

Lemma spawned_spawns (l : list entry) : spawned (ESpawn <$> l) = l.
Proof. induction l; simpl; [done | by f_equal]. Qed.
Lemma puts_spawns (l : list entry) : puts (ESpawn <$> l) = [].
Proof. by induction l. Qed.
Lemma gets_spawns (l : list entry) : gets (ESpawn <$> l) = [].
Proof. by induction l. Qed.
Lemma pages_spawns (l : list entry) : pages (ESpawn <$> l) = [].
Proof. by induction l. Qed.
Lemma details_spawns (l : list entry) : details (ESpawn <$> l) = [].
Proof. by induction l. Qed.
Lemma rekognized_spawns (l : list entry) : rekognized (ESpawn <$> l) = [].
Proof. by induction l. Qed.

Lemma rekognized_rekognizes (l : list (gmap string value)) :
  rekognized (ERekognize <$> l) = l.
Proof. induction l; simpl; [done | by f_equal]. Qed.
Lemma puts_rekognizes (l : list (gmap string value)) : puts (ERekognize <$> l) = [].
Proof. by induction l. Qed.
Lemma gets_rekognizes (l : list (gmap string value)) : gets (ERekognize <$> l) = [].
Proof. by induction l. Qed.
Lemma spawned_rekognizes (l : list (gmap string value)) :
  spawned (ERekognize <$> l) = [].
Proof. by induction l. Qed.
Lemma pages_rekognizes (l : list (gmap string value)) : pages (ERekognize <$> l) = [].
Proof. by induction l. Qed.
Lemma details_rekognizes (l : list (gmap string value)) :
  details (ERekognize <$> l) = [].
Proof. by induction l. Qed.

Lemma elem_of_spawns (e : event) (l : list entry) :
  e ∈ ESpawn <$> l -> exists item, e = ESpawn item.
Proof. intros (item & -> & _)%list_elem_of_fmap. eauto. Qed.

Lemma elem_of_rekognizes (e : event) (l : list (gmap string value)) :
  e ∈ ERekognize <$> l -> exists item, e = ERekognize item.
Proof. intros (item & -> & _)%list_elem_of_fmap. eauto. Qed.

Lemma made_page (url : string) (r : response page) (l : list event) :
  made (EPage url r :: l) = made l.
Proof. by destruct r. Qed.
Lemma made_put (v : obj) (l : list event) : made (EPut v :: l) = made l.
Proof. done. Qed.
Lemma made_get (v : obj) (l : list event) : made (EGet v :: l) = made l.
Proof. done. Qed.
Lemma made_stop (l : list event) : made (EStop :: l) = made l.
Proof. done. Qed.
Lemma made_nil : made [] = [].
Proof. done. Qed.
Lemma made_spawns (l : list entry) : made (ESpawn <$> l) = [].
Proof. unfold made. by rewrite details_spawns. Qed.
Lemma made_rekognizes (l : list (gmap string value)) : made (ERekognize <$> l) = [].
Proof. unfold made. by rewrite details_rekognizes. Qed.
Lemma made_detail (item : entry) (resp : response (list string)) (l : list event) :
  made (EDetail item resp :: l) =
    match _get_item item resp with
    | Ret result => (item, result) :: made l
    | Raise _ => made l
    end.
Proof. unfold made. simpl. by destruct (_get_item item resp). Qed.

Create Rewrite HintDb trace.
#[local] Hint Rewrite made_page made_put made_get made_stop made_nil made_spawns
  made_rekognizes : trace.
#[local] Hint Rewrite puts_app gets_app spawned_app pages_app details_app
  rekognized_app made_app spawned_spawns puts_spawns gets_spawns pages_spawns
  details_spawns rekognized_spawns rekognized_rekognizes puts_rekognizes
  gets_rekognizes spawned_rekognizes pages_rekognizes details_rekognizes
  @app_nil_r : trace.

(** ** Task lists *)

Lemma all_done_Forall {A} (ts : list (A * status)) :
  all_done ts = true <-> Forall (fun t => t.2 = Done) ts.
Proof.
  unfold all_done. induction ts as [|[x st] ts IH]; simpl.
  - split; [constructor | done].
  - rewrite andb_true_iff, IH, Forall_cons. simpl.
    destruct st; simpl; intuition congruence.
Qed.

Lemma all_done_nil {A} : all_done (@nil (A * status)) = true.
Proof. done. Qed.

Lemma all_done_lookup {A} (ts : list (A * status)) (i : nat) (x : A) (st : status) :
  all_done ts = true -> ts !! i = Some (x, st) -> st = Done.
Proof.
  rewrite all_done_Forall, Forall_lookup. intros H Hi. exact (H i _ Hi).
Qed.

Lemma filter_done_spawn {A} (xs : list A) :
  filter (fun t : A * status => is_done t.2) (spawn xs) = [].
Proof.
  unfold spawn. induction xs as [|x xs IH]; [done |].
  rewrite fmap_cons, filter_cons_False; [done | simpl; tauto].
Qed.

Lemma spawn_fst {A} (xs : list A) : (spawn xs).*1 = xs.
Proof.
  unfold spawn. rewrite <- list_fmap_compose. apply list_fmap_id.
Qed.

Lemma filter_done_all {A} (ts : list (A * status)) :
  all_done ts = true -> filter (fun t : A * status => is_done t.2) ts = ts.
Proof.
  rewrite all_done_Forall. induction 1 as [|[x st] ts Hx _ IH]; [done |].
  simpl in Hx. subst st. rewrite filter_cons_True by done. by f_equal.
Qed.

Lemma insert_middle {A} (l : list A) (i : nat) (x y : A) :
  l !! i = Some x ->
  l = take i l ++ x :: drop (S i) l /\ <[i := y]> l = take i l ++ y :: drop (S i) l.
Proof.
  intros H. split.
  - by rewrite take_drop_middle.
  - apply insert_take_drop. by eapply lookup_lt_Some.
Qed.

Lemma filter_done_finish {A} (ts : list (A * status)) (i : nat) (x : A) :
  ts !! i = Some (x, Pending) ->
  (filter (fun t : A * status => is_done t.2) (<[i := (x, Done)]> ts)).*1
    ≡ₚ (filter (fun t : A * status => is_done t.2) ts).*1 ++ [x].
Proof.
  intros H. destruct (insert_middle ts i _ (x, Done) H) as [E1 E2].
  rewrite E2. rewrite E1 at 3.
  rewrite !filter_app, filter_cons_True, filter_cons_False by (simpl; tauto).
  rewrite !fmap_app, fmap_cons. simpl.
  rewrite <- Permutation_middle, <- Permutation_cons_append. done.
Qed.

Lemma filter_done_fail {A} (ts : list (A * status)) (i : nat) (x : A) (e : exn) :
  ts !! i = Some (x, Pending) ->
  filter (fun t : A * status => is_done t.2) (<[i := (x, Failed e)]> ts)
    = filter (fun t : A * status => is_done t.2) ts.
Proof.
  intros H. destruct (insert_middle ts i _ (x, Failed e) H) as [E1 E2].
  rewrite E2. rewrite E1 at 3.
  by rewrite !filter_app, !filter_cons_False by (simpl; tauto).
Qed.

Lemma fst_insert_same {A} (ts : list (A * status)) (i : nat) (x : A) (st st' : status) :
  ts !! i = Some (x, st) -> (<[i := (x, st')]> ts).*1 = ts.*1.
Proof.
  intros H. rewrite list_fmap_insert. simpl.
  apply list_insert_id. by rewrite list_lookup_fmap, H.
Qed.

Lemma failed_insert {A} (ts : list (A * status)) (i : nat) (y : A * status) :
  ts !! i = Some (y.1, Pending) ->
  (exists j x e, ts !! j = Some (x, Failed e)) ->
  exists j x e, <[i := y]> ts !! j = Some (x, Failed e).
Proof.
  intros Hi (j & x & e & Hj). exists j, x, e.
  rewrite list_lookup_insert_ne; [done |]. intros ->. congruence.
Qed.

Lemma failed_not_all_done {A} (ts : list (A * status)) :
  (exists j x e, ts !! j = Some (x, Failed e)) -> all_done ts = false.
Proof.
  intros (j & x & e & Hj). destruct (all_done ts) eqn:E; [| done].
  by pose proof (all_done_lookup _ _ _ _ E Hj).
Qed.

Lemma pending_not_all_done {A} (ts : list (A * status)) (i : nat) (x : A) :
  ts !! i = Some (x, Pending) -> all_done ts = false.
Proof.
  intros Hi. destruct (all_done ts) eqn:E; [| done].
  by pose proof (all_done_lookup _ _ _ _ E Hi).
Qed.

Lemma search_url_truthy (query : string) : str_truthy (search_url query) = true.
Proof. reflexivity. Qed.

Ltac tr_simpl :=
  repeat (progress (autorewrite with trace;
                    simpl (puts _); simpl (gets _); simpl (spawned _);
                    simpl (pages _); simpl (details _); simpl (rekognized _);
                    simpl (queue _); simpl (walker _); simpl (tasks _);
                    simpl (main _); simpl (img_ids _); simpl (rk_tasks _);
                    simpl (disk _); simpl (searching _); simpl (iterating _))).

Ltac not_in_new Hu :=
  simpl in Hu;
  repeat (apply elem_of_cons in Hu as [Hu | Hu]; [done |]);
  first [ by apply elem_of_nil in Hu
        | by apply elem_of_spawns in Hu as [? ?]
        | by apply elem_of_rekognizes in Hu as [? ?] ].

(** ** The invariant of the fetch pipeline *)

Section Fetch.

Variables (query : string) (dir : list string).

Lemma inv_init : inv query [] (init query dir).
Proof.
  constructor; simpl; try done.
  - intros np first [= <- <-]. done.
  - auto.
  - intros [url H]. by apply elem_of_nil in H.
  - intros [item H]. by apply elem_of_nil in H.
  - intros H. by apply elem_of_nil in H.
Qed.

(** Before the first page nothing has been put. *)
Lemma inv_no_page (tr : list event) (s : state) :
  inv query tr s -> pages tr = [] -> puts tr = [] /\ tasks s = [].
Proof.
  intros I Hp.
  assert (tasks s = []) as Ht.
  { apply fmap_nil_inv with (f := fst).
    by rewrite (inv_spawned I), (inv_entries I), Hp. }
  split; [| done].
  pose proof (inv_made I) as Hm. rewrite Ht in Hm.
  apply Permutation_nil_r, fmap_nil_inv in Hm.
  rewrite (inv_puts I), Hp, Hm.
  by destruct (inv_start I Hp) as [-> | ->].
Qed.

Lemma ONone_not_record (l : list (gmap string value)) : ONone ∉ ODict <$> l.
Proof. by intros (? & ? & _)%list_elem_of_fmap. Qed.

(** The Sentinel has been put exactly when [_get_pages] has returned. *)
Lemma inv_sentinel (tr : list event) (s : state) :
  inv query tr s -> ONone ∈ puts tr <-> walker s = WReturned.
Proof.
  intros I. rewrite (inv_puts I). split.
  - rewrite !elem_of_app. intros [H | [H | H]].
    + destruct (pages tr); simpl in H; [by apply elem_of_nil in H |].
      by apply list_elem_of_singleton in H.
    + by apply ONone_not_record in H.
    + destruct (walker s); try done; by apply elem_of_nil in H.
  - intros ->. rewrite !elem_of_app. right; right. simpl. by left.
Qed.

Ltac old_fail I :=
  let u := fresh "u" in
  let Hu := fresh "Hu" in
  intros [u Hu]; apply elem_of_app in Hu as [Hu | Hu];
  [ first [apply (inv_page_fail I) | apply (inv_detail_fail I)]; by eauto
  | not_in_new Hu ].

Lemma inv_step (tr : list event) (s s' : state) (a : action) (evs : list event) :
  inv query tr s -> exec s a = Some (s', evs) -> inv query (tr ++ evs) s'.
Proof.
  intros I. unfold exec. destruct (running s) eqn:Hrun; [| done].
  destruct a as [resp| |i|i resp| | | |j|j img labels].
  - (* one page *)
    unfold get_pages_iter.
    destruct (walker s) as [[url|] first| |] eqn:Hw; try done.
    destruct (str_truthy url) eqn:Hurl; [| done].
    pose proof (inv_first I _ _ Hw) as Hfirst.
    destruct resp as [data|]; intros [= <- <-].
    + destruct (pages tr) as [|p ps] eqn:Hp; subst first.
      * (* the first page: the total is put *)
        destruct (inv_no_page _ _ I Hp) as [Hnil Ht].
        assert (made tr = []) as Hmade.
        { pose proof (inv_made I) as Hm. rewrite Ht in Hm.
          by apply Permutation_nil_r, fmap_nil_inv in Hm. }
        assert (gets tr = [] /\ queue s = []) as [Hg Hq].
        { pose proof (inv_fifo I) as Hf. rewrite Hnil in Hf.
          symmetry in Hf. by apply app_eq_nil in Hf. }
        constructor; tr_simpl; rewrite ?Hp, ?Hnil, ?Hmade, ?Hg, ?Hq, ?Ht.
        -- done.
        -- done.
        -- by intros np f [= <- <-].
        -- done.
        -- rewrite <- (inv_spawned I), Ht. simpl. apply spawn_fst.
        -- rewrite <- (inv_spawned I), Ht. simpl. by rewrite ?app_nil_r.
        -- simpl. by rewrite filter_done_spawn.
        -- done.
        -- intros [u Hu]. apply elem_of_app in Hu as [Hu | Hu].
           { rewrite (inv_page_fail I) in Hw by eauto. done. }
           simpl in Hu.
           do 2 (apply elem_of_cons in Hu as [Hu | Hu]; [done |]).
           by apply elem_of_spawns in Hu as [? ?].
        -- intros [u Hu]. apply elem_of_app in Hu as [Hu | Hu].
           { destruct (inv_detail_fail I) as (j & x & e & Hj); [eauto |].
             by rewrite Ht in Hj. }
           simpl in Hu.
           do 2 (apply elem_of_cons in Hu as [Hu | Hu]; [done |]).
           by apply elem_of_spawns in Hu as [? ?].
        -- done.
        -- intros Hs. destruct (inv_total I Hs) as (p & Hp' & _).
           by rewrite Hp in Hp'.
        -- intros t Ht'. pose proof (inv_iter I _ Ht') as Hh. by rewrite Hg in Hh.
        -- intros Hu. by apply elem_of_nil in Hu.
      * (* a later page *)
        constructor; tr_simpl; rewrite ?Hp.
        -- apply (inv_fifo I).
        -- rewrite (inv_puts I), Hp, Hw. simpl. by rewrite ?app_nil_r.
        -- by intros np f [= <- <-].
        -- done.
        -- by rewrite fmap_app, (inv_spawned I), spawn_fst.
        -- rewrite fmap_app, concat_app, (inv_entries I), Hp. simpl.
           by rewrite ?app_nil_r.
        -- rewrite filter_app, filter_done_spawn, ?app_nil_r. apply (inv_made I).
        -- done.
        -- intros [u Hu]. apply elem_of_app in Hu as [Hu | Hu].
           { rewrite (inv_page_fail I) in Hw by eauto. done. }
           simpl in Hu.
           apply elem_of_cons in Hu as [Hu | Hu]; [done |].
           by apply elem_of_spawns in Hu as [? ?].
        -- intros [u Hu]. apply elem_of_app in Hu as [Hu | Hu].
           { destruct (inv_detail_fail I) as (j & x & e & Hj); [eauto |].
             exists j, x, e. by apply lookup_app_l_Some. }
           simpl in Hu.
           apply elem_of_cons in Hu as [Hu | Hu]; [done |].
           by apply elem_of_spawns in Hu as [? ?].
        -- apply (inv_search I).
        -- intros Hs. destruct (inv_total I Hs) as (p' & Hp' & Hg').
           rewrite Hp in Hp'. by exists p'.
        -- apply (inv_iter I).
        -- apply (inv_stop I).
    + constructor; tr_simpl; try (by destruct I).
      * rewrite (inv_puts I), Hw. simpl. by rewrite ?app_nil_r.
      * intros Hp. by right.
      * intros [item Hu]. apply elem_of_app in Hu as [Hu | Hu].
        -- apply (inv_detail_fail I). eauto.
        -- by apply list_elem_of_singleton in Hu.
  - (* gather returns *)
    unfold get_pages_gather.
    destruct (walker s) as [np first| |] eqn:Hw; try done.
    destruct (negb (opt_truthy np) && all_done (tasks s)) eqn:Hc; [| done].
    apply andb_true_iff in Hc as [Hnp Hdone]. apply negb_true_iff in Hnp.
    intros [= <- <-].
    constructor; tr_simpl; try (by destruct I).
    + rewrite (inv_fifo I). by rewrite app_assoc.
    + rewrite (inv_puts I), Hw. simpl. by rewrite ?app_nil_r, <- ?app_assoc.
    + intros Hp. destruct (inv_start I Hp) as [E | E]; rewrite Hw in E; [| done].
      injection E as -> _.
      destruct (eq_true_false_abs _ (search_url_truthy query) Hnp).
    + intros [u Hu]. apply elem_of_app in Hu as [Hu | Hu].
      * rewrite (inv_page_fail I) in Hw by eauto. done.
      * by apply list_elem_of_singleton in Hu.
    + intros [u Hu]. apply elem_of_app in Hu as [Hu | Hu].
      * apply (inv_detail_fail I). eauto.
      * by apply list_elem_of_singleton in Hu.
  - (* gather raises *)
    unfold get_pages_gather_raise.
    destruct (walker s) as [np first| |] eqn:Hw; try done.
    destruct (opt_truthy np) eqn:Hnp; [done |].
    destruct (tasks s !! i) as [[item [| |e]]|] eqn:Hi; try done.
    intros [= <- <-].
    constructor; tr_simpl; try (by destruct I).
    + rewrite (inv_puts I), Hw. simpl. by rewrite ?app_nil_r.
    + intros Hp. destruct (inv_start I Hp) as [E | E]; rewrite Hw in E; [| done].
      injection E as -> _.
      destruct (eq_true_false_abs _ (search_url_truthy query) Hnp).
    + intros Hu. rewrite (inv_page_fail I) in Hw by eauto. done.
  - (* one detail fetch *)
    unfold get_item_task.
    destruct (tasks s !! i) as [[item [| |e]]|] eqn:Hi; try done.
    assert (sentinel_part (walker s) = []) as Hsent.
    { destruct (walker s) eqn:Hw; try done.
      pose proof (inv_returned I Hw) as Hall.
      by rewrite (pending_not_all_done _ _ _ Hi) in Hall. }
    assert (forall w, walker s = w -> w <> WReturned) as Hnr.
    { intros w <- Hw. rewrite Hw in Hsent. done. }
    unfold _get_item.
    destruct (item_data item) as [|d rest] eqn:Hd.
    { intros [= <- <-].
      constructor; tr_simpl; try (by destruct I).
      - by rewrite (fst_insert_same _ _ _ _ _ Hi), (inv_spawned I).
      - by rewrite (filter_done_fail _ _ _ _ Hi), (inv_made I).
      - intros Hw. by destruct (Hnr _ Hw).
      - intros _. exists i, item, IndexError.
        apply list_lookup_insert_eq. by eapply lookup_lt_Some. }
    destruct resp as [data|]; intros [= <- <-].
    + assert (made [EDetail item (Ok data); EPut (ODict (<["image_urls" := VDict (image_urls data)]> d))]
              = [(item, <["image_urls" := VDict (image_urls data)]> d)]) as Hmade.
      { unfold made. simpl. unfold _get_item. by rewrite Hd. }
      constructor; tr_simpl; try (by destruct I).
      * rewrite (inv_fifo I). by rewrite app_assoc.
      * rewrite Hmade, (inv_puts I), Hsent. simpl.
        rewrite !fmap_app. simpl. by rewrite !app_nil_r, app_assoc.
      * by rewrite (fst_insert_same _ _ _ _ _ Hi), (inv_spawned I).
      * rewrite Hmade, fmap_app, (filter_done_finish _ _ _ Hi). simpl.
        by rewrite (inv_made I).
      * intros Hw. by destruct (Hnr _ Hw).
      * intros [u Hu]. apply (inv_page_fail I). exists u.
        apply elem_of_app in Hu as [Hu | Hu]; [done |].
        repeat (apply elem_of_cons in Hu as [Hu | Hu]; [done |]).
        by apply elem_of_nil in Hu.
      * intros [u Hu]. apply (failed_insert _ _ (item, Done)); [done |].
        apply (inv_detail_fail I). exists u.
        apply elem_of_app in Hu as [Hu | Hu]; [done |].
        repeat (apply elem_of_cons in Hu as [Hu | Hu]; [done |]).
        by apply elem_of_nil in Hu.
    + assert (made [EDetail item NotOk] = []) as Hmade.
      { unfold made. simpl. unfold _get_item. by rewrite Hd. }
      constructor; tr_simpl; try (by destruct I).
      * rewrite Hmade. autorewrite with trace. apply (inv_puts I).
      * by rewrite (fst_insert_same _ _ _ _ _ Hi), (inv_spawned I).
      * rewrite Hmade, (filter_done_fail _ _ _ _ Hi). autorewrite with trace.
        apply (inv_made I).
      * intros Hw. by destruct (Hnr _ Hw).
      * intros [u Hu]. apply (inv_page_fail I). exists u.
        apply elem_of_app in Hu as [Hu | Hu]; [done |].
        repeat (apply elem_of_cons in Hu as [Hu | Hu]; [done |]).
        by apply elem_of_nil in Hu.
      * intros _. exists i, item, HttpError.
        apply list_lookup_insert_eq. by eapply lookup_lt_Some.
  - (* search returns *)
    unfold search.
    destruct (main s) eqn:Hm; try done.
    destruct (queue s) as [|v q] eqn:Hq; [done |].
    intros [= <- <-].
    pose proof (inv_search I) as Hg. rewrite Hm in Hg. specialize (Hg eq_refl).
    pose proof (inv_fifo I) as Hf. rewrite Hg, Hq in Hf. simpl in Hf.
    destruct (pages tr) as [|p ps] eqn:Hp.
    { destruct (inv_no_page _ _ I Hp) as [Hnil _]. congruence. }
    assert (v = OInt (total_hits p)) as ->.
    { rewrite (inv_puts I), Hp in Hf. simpl in Hf. congruence. }
    constructor; tr_simpl; try (by destruct I); try (old_fail I).
    + rewrite Hf, Hg. done.
    + intros _. exists p. by rewrite Hg, Hp.
    + intros t [= <-]. by rewrite Hg.
    + rewrite Hg. simpl. intros Hu. by apply list_elem_of_singleton in Hu.
  - (* the iterator advances *)
    unfold main_next.
    destruct (main s) as [|total| | |] eqn:Hm; try done.
    destruct (queue s) as [|v q] eqn:Hq; [done |].
    pose proof (inv_iter I _ Hm) as Hhd.
    assert (ONone ∉ gets tr) as Hno.
    { intros H. apply (inv_stop I) in H. by rewrite Hm in H. }
    destruct (inv_total I) as (p & Hp & Hg); [by rewrite Hm |].
    assert (forall x, head (gets tr ++ [x]) = head (gets tr)) as Hhead.
    { intros x. by destruct (gets tr). }
    assert (puts tr = (gets tr ++ [v]) ++ q) as Hfifo.
    { rewrite (inv_fifo I), Hq. by rewrite <- app_assoc. }
    destruct v as [|n|item].
    + intros [= <- <-].
      constructor; tr_simpl; try (by destruct I); try (old_fail I).
      intros _. exists p. by rewrite Hhead.
    + intros [= <- <-].
      constructor; tr_simpl; try (by destruct I); try (old_fail I).
      intros _. exists p. by rewrite Hhead.
    + destruct (loop_body (img_ids s) item) as [[ids new]|e] eqn:Hb;
        intros [= <- <-].
      * constructor; tr_simpl; try (by destruct I); try (old_fail I).
        -- intros _. exists p. by rewrite Hhead.
        -- intros t [= <-]. by rewrite Hhead.
        -- intros Hu. apply elem_of_app in Hu as [Hu | Hu]; [done |].
           by apply list_elem_of_singleton in Hu.
      * constructor; tr_simpl; try (by destruct I); try (old_fail I).
        intros _. exists p. by rewrite Hhead.
  - (* main's gather returns *)
    unfold main_gather.
    destruct (main s) eqn:Hm; try done.
    destruct (all_done (rk_tasks s)); [| done].
    intros [= <- <-].
    constructor; tr_simpl; try (by destruct I); try (old_fail I).
    intros _. apply (inv_total I). by rewrite Hm.
  - (* main's gather raises *)
    unfold main_gather_raise.
    destruct (main s) eqn:Hm; try done.
    destruct (rk_tasks s !! j) as [[item [| |e]]|]; try done.
    intros [= <- <-].
    constructor; tr_simpl; try (by destruct I); try (old_fail I).
    intros _. apply (inv_total I). by rewrite Hm.
  - (* one rekognize task *)
    unfold rekognize_task.
    destruct (rk_tasks s !! j) as [[item [| |e]]|]; try done.
    destruct (rekognize item img labels); intros [= <- <-];
      constructor; tr_simpl; try (by destruct I); try (old_fail I).
Qed.

Lemma run_inv (tr : list event) (s : state) :
  run (init query dir) tr s -> inv query tr s.
Proof.
  induction 1 as [|tr s a s' evs _ IH Hstep]; [apply inv_init |].
  by eapply inv_step.
Qed.

End Fetch.

(** ** The invariant of the downstream driver *)

Lemma loop_body_spec (ids : gset string) (item : gmap string value)
    (ids' : gset string) (new : list (gmap string value)) :
  loop_body ids item = Ret (ids', new) ->
  exists id, nasa_id item = Some (VStr id) /\
    ((id ∈ ids /\ ids' = ids /\ new = []) \/
     ((id ∉ ids) /\ ids' = {[id]} ∪ ids /\ new = [item])).
Proof.
  unfold loop_body, nasa_id.
  destruct (item !! "nasa_id") as [[id|m]|]; try done.
  case_bool_decide; intros [= <- <-]; exists id; split; auto.
Qed.

Section Driver.

Variables (query : string) (dir : list string).

Lemma dinv_init : dinv dir [] (init query dir).
Proof.
  constructor; simpl; try done.
  - intros item H. by apply elem_of_nil in H.
  - constructor.
Qed.

Lemma d_rk_weaken (tr : list event) (g : list obj) (s : state)
    (ids : gset string) (l : list (gmap string value)) :
  dinv dir tr s -> img_ids s ⊆ ids -> l = (rk_tasks s).*1 -> gets tr ⊆ g ->
  forall item, item ∈ l ->
    exists id, nasa_id item = Some (VStr id) /\ id ∈ ids /\
               (id ∉ load_img_ids dir) /\ ODict item ∈ g.
Proof.
  intros D Hsub -> Hg item Hin.
  destruct (d_rk D item Hin) as (id & ? & ? & ? & ?).
  exists id. set_solver.
Qed.

Ltac old_rk D := eapply d_rk_weaken; [exact D | set_solver | done | set_solver].

Lemma dinv_step (tr : list event) (s s' : state) (a : action) (evs : list event) :
  dinv dir tr s -> exec s a = Some (s', evs) -> dinv dir (tr ++ evs) s'.
Proof.
  intros D. unfold exec. destruct (running s) eqn:Hrun; [| done].
  assert (main s <> MReturned) as Hnr.
  { unfold running in Hrun. by destruct (main s). }
  destruct a as [resp| |i|i resp| | | |j|j img labels].
  - unfold get_pages_iter.
    destruct (walker s) as [[url|] first| |]; try done.
    destruct (str_truthy url); [| done].
    destruct resp as [data|]; intros [= <- <-].
    + constructor; tr_simpl; try (by destruct D); try (old_rk D).
      * replace (rekognized (EPut <$> (if first then [OInt (total_hits data)] else [])))
          with (@nil (gmap string value)) by (by destruct first).
        tr_simpl. apply (d_rekognized D).
    + constructor; tr_simpl; try (by destruct D); try (old_rk D).
  - unfold get_pages_gather.
    destruct (walker s) as [np first| |]; try done.
    destruct (negb (opt_truthy np) && all_done (tasks s)); [| done].
    intros [= <- <-].
    constructor; tr_simpl; try (by destruct D); try (old_rk D).
  - unfold get_pages_gather_raise.
    destruct (walker s) as [np first| |]; try done.
    destruct (opt_truthy np); [done |].
    destruct (tasks s !! i) as [[item [| |e]]|]; try done.
    intros [= <- <-].
    constructor; tr_simpl; try (by destruct D); try (old_rk D).
  - unfold get_item_task.
    destruct (tasks s !! i) as [[item [| |e]]|]; try done.
    destruct (_get_item item resp); intros [= <- <-].
    + constructor; tr_simpl; try (by destruct D); try (old_rk D).
      * destruct (item_data item); tr_simpl; apply (d_rekognized D).
    + constructor; tr_simpl; try (by destruct D); try (old_rk D).
      * destruct (item_data item); tr_simpl; apply (d_rekognized D).
  - unfold search.
    destruct (main s) eqn:Hm; try done.
    destruct (queue s) as [|v q]; [done |].
    intros [= <- <-].
    constructor; tr_simpl; try (by destruct D); try (old_rk D).
  - unfold main_next.
    destruct (main s) as [|total| | |] eqn:Hm; try done.
    destruct (queue s) as [|v q]; [done |].
    destruct v as [|n|item].
    + intros [= <- <-].
      constructor; tr_simpl; try (by destruct D); try (old_rk D).
    + intros [= <- <-].
      constructor; tr_simpl; try (by destruct D); try (old_rk D).
    + destruct (loop_body (img_ids s) item) as [[ids new]|e] eqn:Hb;
        intros [= <- <-].
      * apply loop_body_spec in Hb
          as (id & Hid & [(Hin & -> & ->) | (Hnin & -> & ->)]).
        -- constructor; tr_simpl; try (by destruct D); try (old_rk D).
        -- constructor; tr_simpl.
           ++ pose proof (d_ids D). set_solver.
           ++ intros item'. rewrite fmap_app, elem_of_app. intros [H | H].
              ** revert H. old_rk D.
              ** simpl in H. apply list_elem_of_singleton in H as ->.
                 exists id. split_and!; [done | set_solver | | set_solver].
                 pose proof (d_ids D). set_solver.
           ++ rewrite !fmap_app. simpl. apply NoDup_app. split_and!.
              ** apply (d_nodup D).
              ** intros x Hx ->%list_elem_of_singleton.
                 apply list_elem_of_fmap in Hx as (item' & Hx & Hin).
                 destruct (d_rk D item' Hin) as (id' & Hid' & ? & _).
                 rewrite Hid in Hx. rewrite Hid' in Hx. by injection Hx as <-.
              ** apply NoDup_singleton.
           ++ rewrite fmap_app. simpl. by rewrite (d_rekognized D).
           ++ done.
      * constructor; tr_simpl; try (by destruct D); try (old_rk D).
  - unfold main_gather.
    destruct (main s) eqn:Hm; try done.
    destruct (all_done (rk_tasks s)) eqn:Hall; [| done].
    intros [= <- <-].
    constructor; tr_simpl; try (by destruct D); try (old_rk D).
  - unfold main_gather_raise.
    destruct (main s) eqn:Hm; try done.
    destruct (rk_tasks s !! j) as [[item [| |e]]|]; try done.
    intros [= <- <-].
    constructor; tr_simpl; try (by destruct D); try (old_rk D).
  - unfold rekognize_task.
    destruct (rk_tasks s !! j) as [[item [| |e]]|] eqn:Hj; try done.
    destruct (rekognize item img labels); intros [= <- <-].
    + constructor; tr_simpl; rewrite ?(fst_insert_same _ _ _ _ _ Hj);
        try (by destruct D).
    + constructor; tr_simpl; rewrite ?(fst_insert_same _ _ _ _ _ Hj);
        try (by destruct D).
Qed.

Lemma run_dinv (tr : list event) (s : state) :
  run (init query dir) tr s -> dinv dir tr s.
Proof.
  induction 1 as [|tr s a s' evs _ IH Hstep]; [apply dinv_init |].
  by eapply dinv_step.
Qed.

End Driver.

(** ** Schedules and steps *)

Lemma run_cons (s0 s1 s : state) (a : action) (evs tr : list event) :
  exec s0 a = Some (s1, evs) -> run s1 tr s -> run s0 (evs ++ tr) s.
Proof.
  intros Ha. induction 1 as [|tr s a' s' evs' _ IH Hstep].
  - rewrite app_nil_r. apply (run_snoc s0 [] s0 a s1 evs); [constructor | done].
  - rewrite app_assoc. by eapply run_snoc.
Qed.

Lemma exec_all_run (s0 : state) (acts : list action) (s : state) (tr : list event) :
  exec_all s0 acts = Some (s, tr) -> run s0 tr s.
Proof.
  revert s0 s tr. induction acts as [|a acts IH]; intros s0 s tr; simpl.
  - intros [= <- <-]. constructor.
  - destruct (exec s0 a) as [[s1 evs]|] eqn:Ha; [| done].
    destruct (exec_all s1 acts) as [[s2 evs']|] eqn:Hr; [| done].
    intros [= <- <-]. eapply run_cons; eauto.
Qed.

Lemma app_eq_split {A} (l1 l2 pre post : list A) (e : A) :
  l1 ++ l2 = pre ++ e :: post ->
  (exists k, l1 = pre ++ e :: k /\ post = k ++ l2) \/
  (exists k, pre = l1 ++ k /\ l2 = k ++ e :: post).
Proof.
  revert pre. induction l1 as [|x l1 IH]; intros pre H; simpl in *.
  - right. by exists pre.
  - destruct pre as [|y pre]; simpl in *.
    + injection H as -> <-. left. by exists l1.
    + injection H as -> H. destruct (IH _ H) as [(k & -> & ->) | (k & -> & ->)].
      * left. by exists k.
      * right. by exists k.
Qed.

Ltac exec_cases H :=
  unfold exec in H;
  match type of H with
  | (if running ?s then _ else _) = _ =>
      let Hrun := fresh "Hrun" in
      destruct (running s) eqn:Hrun; [| done]
  end;
  match type of H with
  | match ?a with _ => _ end = _ => destruct a
  end;
  unfold get_pages_iter, get_pages_gather, get_pages_gather_raise,
    get_item_task, search, main_next, main_gather, main_gather_raise,
    rekognize_task in H;
  repeat case_match; simplify_eq.

(** Only the join of [_get_pages] puts the Sentinel, once every task is
    done. *)
Lemma exec_put_sentinel (s s' : state) (a : action) (evs : list event) :
  exec s a = Some (s', evs) -> EPut ONone ∈ evs ->
  a = AGather /\ evs = [EPut ONone] /\ all_done (tasks s) = true /\
  walker s' = WReturned /\ tasks s' = tasks s.
Proof.
  intros H Hin. exec_cases H; try (by not_in_new Hin).
  match goal with H : _ && _ = true |- _ => apply andb_true_iff in H as [_ ?] end.
  done.
Qed.

(** Once [_get_pages] has returned and its tasks are done, nothing more is
    fetched, spawned or put. *)
Lemma exec_after_return (s s' : state) (a : action) (evs : list event) :
  exec s a = Some (s', evs) -> walker s = WReturned -> all_done (tasks s) = true ->
  puts evs = [] /\ spawned evs = [] /\ details evs = [] /\ pages evs = [].
Proof.
  intros H Hw Hall. exec_cases H; try congruence; tr_simpl; try done.
  all: match goal with
       | Hi : tasks _ !! _ = Some (_, Pending) |- _ =>
           by rewrite (pending_not_all_done _ _ _ Hi) in Hall
       end.
Qed.

(** Once the iterator has stopped, nothing more is taken from the queue. *)
Lemma exec_not_iterating (s s' : state) (a : action) (evs : list event) :
  exec s a = Some (s', evs) -> iterating (main s) = false -> gets evs = [].
Proof.
  intros H Hm. exec_cases H; tr_simpl; try done.
  all: try match goal with
           | Hs : main ?s = _ |- _ => by rewrite Hs in Hm
           end.
  all: try by destruct first.
  all: by destruct (item_data _).
Qed.

(** ** Order of events in a run *)

Lemma last_unique {A} (X Y q : list A) (a : A) :
  a ∉ X -> X ++ [a] = Y ++ a :: q -> q = [] /\ X = Y.
Proof.
  revert Y. induction X as [|x X IH]; intros Y Hn H; simpl in *.
  - destruct Y as [|y Y]; simpl in *.
    + by injection H as <-.
    + injection H as <- H. by destruct Y.
  - destruct Y as [|y Y]; simpl in *.
    + injection H as -> _. set_solver.
    + injection H as <- H. destruct (IH Y) as [-> ->]; [set_solver | done | done].
Qed.

Section Order.
Variables (query : string) (dir : list string).

(** The shape of everything put on the queue. *)
Lemma puts_shape (tr : list event) (s : state) :
  run (init query dir) tr s ->
  exists X, puts tr = X ++ sentinel_part (walker s) /\ (ONone ∉ X) /\
            X = total_part (pages tr) ++ (ODict <$> (made tr).*2).
Proof.
  intros R. pose proof (run_inv query dir _ _ R) as I.
  exists (total_part (pages tr) ++ (ODict <$> (made tr).*2)).
  rewrite (inv_puts I), <- app_assoc. split_and!; try done.
  rewrite elem_of_app. intros [H | H].
  - destruct (pages tr); simpl in H; [by apply elem_of_nil in H |].
    by apply list_elem_of_singleton in H.
  - by apply ONone_not_record in H.
Qed.

(** The Sentinel is put after every task that was ever spawned has made its
    record, and nothing is spawned, fetched or put after it. *)
Lemma sentinel_put_last (tr : list event) (s : state) :
  run (init query dir) tr s ->
  forall pre post, tr = pre ++ EPut ONone :: post ->
    (made pre).*1 ≡ₚ spawned pre /\ (ONone ∉ puts pre) /\
    spawned post = [] /\ details post = [] /\ puts post = [] /\ pages post = [].
Proof.
  induction 1 as [|tr s a s' evs R IH Hstep]; intros pre post E.
  - by destruct pre.
  - pose proof (run_inv query dir _ _ R) as I.
    apply app_eq_split in E as [(k & -> & ->) | (k & -> & ->)].
    + destruct (IH pre k eq_refl) as (Hm & Hn & Hs & Hd & Hp & Hg).
      assert (walker s = WReturned) as Hw.
      { apply (inv_sentinel query _ _ I). rewrite puts_app. simpl. set_solver. }
      destruct (exec_after_return _ _ _ _ Hstep Hw (inv_returned I Hw))
        as (E1 & E2 & E3 & E4).
      tr_simpl. by rewrite Hs, Hd, Hp, Hg, E1, E2, E3, E4.
    + destruct (exec_put_sentinel _ _ _ _ Hstep) as (-> & Hevs & Hall & _).
      { rewrite elem_of_app. right. by left. }
      destruct k as [|x k]; simpl in Hevs.
      2:{ injection Hevs as -> Hevs. by destruct k. }
      injection Hevs as ->. rewrite app_nil_r. split_and!; try done.
      * rewrite (inv_made I), (filter_done_all _ Hall). by rewrite (inv_spawned I).
      * intros Hin. apply (inv_sentinel query _ _ I) in Hin.
        unfold exec in Hstep. destruct (running s); [| done].
        unfold get_pages_gather in Hstep. by rewrite Hin in Hstep.
Qed.

(** Only [__anext__] takes the Sentinel off the queue, and it stops. *)
Lemma exec_get_sentinel (tr : list event) (s s' : state) (a : action)
    (evs : list event) :
  inv query tr s -> exec s a = Some (s', evs) -> EGet ONone ∈ evs ->
  evs = [EGet ONone; EStop] /\ iterating (main s) = true.
Proof.
  intros I H Hin. exec_cases H; try (by not_in_new Hin).
  (* search cannot return the Sentinel: the total comes first *)
  - match goal with Hm : main s = MSearch, Hq : queue s = _ |- _ =>
      pose proof (inv_search I) as Hg; rewrite Hm in Hg; specialize (Hg eq_refl);
      pose proof (inv_fifo I) as Hf; rewrite Hg, Hq in Hf; simpl in Hf
    end.
    apply list_elem_of_singleton in Hin. injection Hin as <-.
    destruct (pages tr) as [|p ps] eqn:Hp.
    + destruct (inv_no_page query _ _ I Hp) as [Hnil _]. congruence.
    + rewrite (inv_puts I), Hp in Hf. simpl in Hf. congruence.
Qed.

(** After the Sentinel has been delivered the iterator has signalled the end
    of the sequence, and nothing more is delivered. *)
Lemma sentinel_got_last (tr : list event) (s : state) :
  run (init query dir) tr s ->
  forall pre post, tr = pre ++ EGet ONone :: post ->
    (ONone ∉ gets pre) /\ exists post', post = EStop :: post' /\ gets post' = [].
Proof.
  induction 1 as [|tr s a s' evs R IH Hstep]; intros pre post E.
  - by destruct pre.
  - pose proof (run_inv query dir _ _ R) as I.
    apply app_eq_split in E as [(k & -> & ->) | (k & -> & ->)].
    + destruct (IH pre k eq_refl) as (Hn & post' & -> & Hg).
      split; [done |]. exists (post' ++ evs). split; [done |].
      rewrite gets_app, Hg. simpl.
      apply (exec_not_iterating _ _ _ _ Hstep). apply (inv_stop I).
      rewrite gets_app. simpl. set_solver.
    + destruct (exec_get_sentinel _ _ _ _ _ I Hstep) as [Hevs Hit].
      { rewrite elem_of_app. right. by left. }
      destruct k as [|x k]; simpl in Hevs.
      2:{ injection Hevs as -> Hevs. destruct k as [|y k]; [done |].
          injection Hevs as -> Hevs. by destruct k. }
      injection Hevs as ->. rewrite app_nil_r. split.
      * intros Hin. apply (inv_stop I) in Hin. congruence.
      * by exists [].
Qed.

(** Only a page step spawns tasks, after putting the total if it is the
    first page. *)
Lemma exec_spawn (s s' : state) (a : action) (evs : list event) (item : entry) :
  exec s a = Some (s', evs) -> ESpawn item ∈ evs ->
  exists url data first np,
    walker s = WLoop np first /\
    evs = EPage url (Ok data)
            :: (EPut <$> (if first then [OInt (total_hits data)] else []))
            ++ (ESpawn <$> page_items data).
Proof.
  intros H Hin. exec_cases H; try (by not_in_new Hin).
  all: eexists _, _, _, _; split; reflexivity.
Qed.

(** The total of the first page is on the queue before any task is spawned. *)
Lemma total_before_spawn (tr : list event) (s : state) :
  run (init query dir) tr s ->
  forall pre item post, tr = pre ++ ESpawn item :: post ->
    exists p, head (pages pre) = Some p /\
              head (puts pre) = Some (OInt (total_hits p)).
Proof.
  induction 1 as [|tr s a s' evs R IH Hstep]; intros pre item post E.
  - by destruct pre.
  - pose proof (run_inv query dir _ _ R) as I.
    apply app_eq_split in E as [(k & -> & ->) | (k & -> & ->)].
    + by eapply IH.
    + destruct (exec_spawn _ _ _ _ item Hstep)
        as (url & data & first & np & Hw & Hevs).
      { rewrite elem_of_app. right. by left. }
      pose proof (inv_first I _ _ Hw) as Hfirst.
      destruct (pages tr) as [|p ps] eqn:Hp; subst first.
      * destruct (inv_no_page query _ _ I Hp) as [Hnil _].
        simpl in Hevs.
        destruct k as [|x k]; [done |]. simpl in Hevs. injection Hevs as -> Hevs.
        destruct k as [|y k]; [done |]. simpl in Hevs. injection Hevs as -> Hevs.
        exists data. tr_simpl. by rewrite Hp, Hnil.
      * exists p. tr_simpl. rewrite Hp, (inv_puts I), Hp. done.
Qed.

End Order.

(** ** Records made by the detail fetches *)

Lemma made_elem (tr : list event) (item : entry) (r : gmap string value) :
  (item, r) ∈ made tr ->
  exists data, EDetail item (Ok data) ∈ tr /\ _get_item item (Ok data) = Ret r /\
               nasa_id r = entry_id item.
Proof.
  unfold made. rewrite list_elem_of_omap. intros ([item' resp] & Hin & Hf).
  unfold details in Hin. apply list_elem_of_omap in Hin as (e & He & Hd).
  destruct e; try done. injection Hd as -> ->.
  destruct (_get_item item' resp) as [r'|] eqn:Hg; [| done].
  injection Hf as -> ->.
  destruct resp as [data|]; [| unfold _get_item in Hg; by destruct (item_data item)].
  exists data. split_and!; try done. by eapply get_item_nasa_id.
Qed.

Lemma made_ids (tr : list event) :
  nasa_id <$> (made tr).*2 = entry_id <$> (made tr).*1.
Proof.
  assert (forall l : list (entry * gmap string value),
            (forall x, x ∈ l -> nasa_id x.2 = entry_id x.1) ->
            nasa_id <$> l.*2 = entry_id <$> l.*1) as H.
  { induction l as [|x l IH]; intros Hl; [done |].
    rewrite !fmap_cons. f_equal; [apply Hl; by left |].
    apply IH. intros y Hy. apply Hl. by right. }
  apply H. intros [item r] Hin.
  by destruct (made_elem _ _ _ Hin) as (? & _ & _ & ?).
Qed.

Lemma records_dicts (l : list (gmap string value)) : records (ODict <$> l) = l.
Proof. induction l; simpl; [done | by f_equal]. Qed.

Lemma records_app (l1 l2 : list obj) : records (l1 ++ l2) = records l1 ++ records l2.
Proof. apply omap_app. Qed.

Lemma records_total_part (ps : list page) : records (total_part ps) = [].
Proof. by destruct ps. Qed.

Lemma records_sentinel_part (w : walker_state) : records (sentinel_part w) = [].
Proof. by destruct w. Qed.

(** Exactly one record is put per detail fetch that succeeds, in any run. *)
Lemma records_put (query : string) (dir : list string) (tr : list event) (s : state) :
  run (init query dir) tr s -> records (puts tr) = (made tr).*2.
Proof.
  intros R. rewrite (inv_puts (run_inv query dir _ _ R)).
  by rewrite !records_app, records_total_part, records_sentinel_part,
    records_dicts, app_nil_r.
Qed.

(** Once the Sentinel has been delivered, everything put has been
    delivered. *)
Lemma gets_complete (query : string) (dir : list string) (tr : list event) (s : state) :
  run (init query dir) tr s -> ONone ∈ gets tr ->
  walker s = WReturned /\ queue s = [] /\
  exists p, gets tr = OInt (total_hits p) :: (ODict <$> (made tr).*2) ++ [ONone].
Proof.
  intros R Hin. pose proof (run_inv query dir _ _ R) as I.
  assert (walker s = WReturned) as Hw.
  { apply (inv_sentinel query _ _ I). rewrite (inv_fifo I). set_solver. }
  destruct (puts_shape query dir _ _ R) as (X & HX & HnX & EX).
  rewrite Hw in HX. simpl in HX.
  apply list_elem_of_split in Hin as (g1 & g2 & Hg).
  pose proof (inv_fifo I) as Hf. rewrite HX, Hg, <- app_assoc in Hf. simpl in Hf.
  apply last_unique in Hf as [Hnil ->]; [| done].
  apply app_eq_nil in Hnil as [-> Hq]. split_and!; try done.
  destruct (pages tr) as [|p ps] eqn:Hp.
  - destruct (inv_start I Hp) as [E | E]; congruence.
  - exists p. by rewrite Hg, EX.
Qed.

(** ** The claims *)

(** C1: in a run where [_get_pages] returns, exactly one Sentinel is put on
    the queue and it is the last value put; it is put only after every task
    that was spawned has ended (each has made its record, and nothing is
    spawned, fetched or put afterwards); the consumer sees values in queue
    order, so the Sentinel is the last value it gets; on getting it the
    iterator raises StopAsyncIteration and nothing more is ever delivered. *)
Theorem C1_sentinel_once_after_tasks_and_last
    (query : string) (dir : list string) (tr : list event) (s : state) :
  run (init query dir) tr s -> walker s = WReturned ->
  (exists p recs, puts tr = OInt (total_hits p) :: (ODict <$> recs) ++ [ONone]) /\
  all_done (tasks s) = true /\ (tasks s).*1 = spawned tr /\
  (forall pre post, tr = pre ++ EPut ONone :: post ->
     (made pre).*1 ≡ₚ spawned tr /\ (ONone ∉ puts pre) /\
     spawned post = [] /\ details post = [] /\ puts post = []) /\
  (exists q, puts tr = gets tr ++ q) /\
  (forall pre post, tr = pre ++ EGet ONone :: post ->
     gets pre ++ [ONone] = puts tr /\ (ONone ∉ gets pre) /\
     exists post', post = EStop :: post' /\ gets post' = []) /\
  (ONone ∈ gets tr ->
     iterating (main s) = false /\ queue s = [] /\
     forall a s' evs, exec s a = Some (s', evs) -> gets evs = []).
Proof.
  intros R Hw. pose proof (run_inv query dir _ _ R) as I.
  destruct (puts_shape query dir _ _ R) as (X & HX & HnX & EX).
  rewrite Hw in HX. simpl in HX.
  assert (forall Y q, puts tr = Y ++ ONone :: q -> q = [] /\ X = Y) as Huniq.
  { intros Y q E. rewrite HX in E. by apply last_unique in E. }
  split_and!.
  - destruct (pages tr) as [|p ps] eqn:Hp.
    + destruct (inv_start I Hp) as [E | E]; congruence.
    + exists p, (made tr).*2. rewrite HX, EX. done.
  - by apply (inv_returned I).
  - apply (inv_spawned I).
  - intros pre post E.
    destruct (sentinel_put_last query dir _ _ R pre post E)
      as (Hm & Hn & Hs & Hd & Hp & _).
    split_and!; try done. rewrite Hm, E, spawned_app. simpl. by rewrite Hs, app_nil_r.
  - exists (queue s). apply (inv_fifo I).
  - intros pre post E.
    destruct (sentinel_got_last query dir _ _ R pre post E) as (Hn & post' & -> & Hg).
    split_and!; [| done | by exists post'].
    pose proof (inv_fifo I) as Hf. rewrite E in Hf at 2.
    rewrite gets_app in Hf. simpl in Hf. rewrite Hg in Hf. simpl in Hf.
    rewrite <- app_assoc in Hf. simpl in Hf.
    destruct (Huniq _ _ Hf) as [_ <-]. done.
  - intros Hin. pose proof (inv_stop I Hin) as Hit. split_and!; [done | |].
    + by destruct (gets_complete query dir tr s R Hin) as (_ & ? & _).
    + intros a s' evs Hstep. by eapply exec_not_iterating.
Qed.

(** C2: the total of the first page is the first value put on the queue:
    nothing is put before a first page has been fetched, and the step of
    [_get_pages] that receives the first page puts its total and only then
    creates the tasks of its entries; [search] returns its iterator only by
    taking that value off the queue, which it can do as soon as the first
    page has been fetched, and the iterator carries it; so the total is the
    first value the consumer gets, before any record. *)
Theorem C2_total_first
    (query : string) (dir : list string) (tr : list event) (s : state) :
  run (init query dir) tr s ->
  (pages tr = [] -> puts tr = []) /\
  (forall p, head (pages tr) = Some p ->
     head (puts tr) = Some (OInt (total_hits p))) /\
  (pages tr = [] -> forall np first, walker s = WLoop np first -> forall p,
     exec s (APage (Ok p))
     = Some (with_fetch [OInt (total_hits p)]
                        (WLoop (next_href (page_links p)) false)
                        (spawn (page_items p)) s,
             EPage (search_url query) (Ok p) :: EPut (OInt (total_hits p))
               :: (ESpawn <$> page_items p))) /\
  (forall pre item post, tr = pre ++ ESpawn item :: post ->
     exists p, head (pages pre) = Some p /\
               head (puts pre) = Some (OInt (total_hits p))) /\
  (searching (main s) = true -> gets tr = []) /\
  (searching (main s) = true -> forall p, head (pages tr) = Some p ->
     exists q, queue s = OInt (total_hits p) :: q /\
       exec s ASearch
       = Some (with_main q (MIter (OInt (total_hits p))) (img_ids s) (rk_tasks s)
                         (disk s) s,
               [EGet (OInt (total_hits p))])) /\
  (searching (main s) = false ->
     exists p, head (pages tr) = Some p /\
               head (gets tr) = Some (OInt (total_hits p)) /\
               forall t, main s = MIter t -> t = OInt (total_hits p)) /\
  (forall pre r post, gets tr = pre ++ ODict r :: post ->
     exists p, head (pages tr) = Some p /\ head pre = Some (OInt (total_hits p))).
Proof.
  intros R. pose proof (run_inv query dir _ _ R) as I.
  assert (searching (main s) = false ->
     exists p, head (pages tr) = Some p /\
               head (gets tr) = Some (OInt (total_hits p)) /\
               forall t, main s = MIter t -> t = OInt (total_hits p)) as Htot.
  { intros Hs. destruct (inv_total I Hs) as (p & Hp & Hg). exists p.
    split_and!; try done. intros t Ht. pose proof (inv_iter I _ Ht). congruence. }
  assert (forall p, head (pages tr) = Some p ->
            head (puts tr) = Some (OInt (total_hits p))) as Hfirst.
  { intros p Hp. rewrite (inv_puts I).
    destruct (pages tr) as [|p' ps]; [done |]. simpl in Hp. by simplify_eq. }
  split_and!.
  - intros Hp. by destruct (inv_no_page query _ _ I Hp).
  - done.
  - intros Hp np first Hw p.
    destruct (inv_no_page query _ _ I Hp) as [Hputs Ht].
    assert (searching (main s) = true) as Hs.
    { destruct (searching (main s)) eqn:Hs; [done |].
      destruct (inv_total I Hs) as (p' & Hh & _). by rewrite Hp in Hh. }
    assert (queue s = []) as Hq.
    { pose proof (inv_fifo I) as Hf. rewrite Hputs in Hf. symmetry in Hf.
      by apply app_eq_nil in Hf as [_ ?]. }
    destruct (inv_start I Hp) as [Hl | Hr]; [| congruence].
    unfold exec, running. destruct (main s); try done.
    unfold get_pages_iter. rewrite Hl, Hq, Ht. done.
  - by apply (total_before_spawn query dir _ _ R).
  - apply (inv_search I).
  - intros Hs p Hp. pose proof (Hfirst p Hp) as Hh.
    rewrite (inv_fifo I), (inv_search I Hs) in Hh. simpl in Hh.
    destruct (queue s) as [|v q] eqn:Hq; [done |]. simpl in Hh. simplify_eq.
    exists q. split; [done |].
    unfold exec, running. destruct (main s) eqn:Hm; try done.
    unfold search. by rewrite Hm, Hq.
  - done.
  - intros pre r post E.
    destruct (searching (main s)) eqn:Hs.
    + rewrite (inv_search I Hs) in E. by destruct pre.
    + destruct (Htot eq_refl) as (p & Hp & Hg & _). exists p. split; [done |].
      rewrite E in Hg. by destruct pre.
Qed.

(** C3: once the consumer has got the Sentinel, the records it got before
    are exactly the records made by the detail fetches, one per entry of the
    pages fetched: one task was spawned per entry of every page, every
    record comes from a successful detail fetch of its entry and keeps the
    entry's identifier, and the identifiers delivered are those of the
    entries, each as many times (no duplicate, no omission), in any order. *)
Theorem C3_records_are_the_entries
    (query : string) (dir : list string) (tr : list event) (s : state) :
  run (init query dir) tr s -> ONone ∈ gets tr ->
  spawned tr = concat (page_items <$> pages tr) /\
  (made tr).*1 ≡ₚ concat (page_items <$> pages tr) /\
  (forall item r, (item, r) ∈ made tr ->
     exists data, EDetail item (Ok data) ∈ tr /\ _get_item item (Ok data) = Ret r /\
                  nasa_id r = entry_id item) /\
  records (puts tr) = (made tr).*2 /\
  (exists p, gets tr = OInt (total_hits p) :: (ODict <$> (made tr).*2) ++ [ONone]) /\
  records (gets tr) = (made tr).*2 /\
  nasa_id <$> records (gets tr) ≡ₚ entry_id <$> concat (page_items <$> pages tr) /\
  (NoDup (entry_id <$> concat (page_items <$> pages tr)) ->
   NoDup (nasa_id <$> records (gets tr))).
Proof.
  intros R Hin. pose proof (run_inv query dir _ _ R) as I.
  destruct (gets_complete query dir tr s R Hin) as (Hw & _ & p & Hgets).
  assert (records (gets tr) = (made tr).*2) as Hrec.
  { rewrite Hgets. simpl. by rewrite records_app, records_dicts, app_nil_r. }
  assert ((made tr).*1 ≡ₚ concat (page_items <$> pages tr)) as Hperm.
  { rewrite (inv_made I), (filter_done_all _ (inv_returned I Hw)).
    by rewrite (inv_spawned I), (inv_entries I). }
  assert (nasa_id <$> records (gets tr)
            ≡ₚ entry_id <$> concat (page_items <$> pages tr)) as Hids.
  { by rewrite Hrec, made_ids, Hperm. }
  split_and!; try done.
  - apply (inv_entries I).
  - apply made_elem.
  - by eapply records_put.
  - by exists p.
  - intros Hnd. by rewrite Hids.
Qed.

(** ** When a fetch fails *)

(** In a run where a page fetch or a detail fetch got a non-success
    response, [_get_pages] never returns and the Sentinel is never put (nor
    got): a failed page fetch ends [_get_pages] with the error at once; a
    failed detail fetch leaves its task failed, so that at the join
    [gather] cannot return and re-raises the error in [_get_pages]; a
    detail fetch that fails puts nothing on the queue, the records put
    being exactly those of the fetches that succeeded. *)
Theorem failure_never_sentinel
    (query : string) (dir : list string) (tr : list event) (s : state) :
  run (init query dir) tr s ->
  (exists url, EPage url NotOk ∈ tr) \/ (exists item, EDetail item NotOk ∈ tr) ->
  walker s <> WReturned /\ (ONone ∉ puts tr) /\ (ONone ∉ gets tr) /\
  ((exists url, EPage url NotOk ∈ tr) -> walker s = WRaised HttpError) /\
  ((exists item, EDetail item NotOk ∈ tr) ->
     exists i item e, tasks s !! i = Some (item, Failed e) /\
       forall np first, walker s = WLoop np first -> opt_truthy np = false ->
         running s = true ->
         exec s AGather = None /\
         exec s (AGatherRaise i)
           = Some (with_fetch (queue s) (WRaised e) (tasks s) s, [])) /\
  records (puts tr) = (made tr).*2 /\
  (forall item r, (item, r) ∈ made tr ->
     exists data, EDetail item (Ok data) ∈ tr /\ _get_item item (Ok data) = Ret r) /\
  (forall s0 i item, running s0 = true -> tasks s0 !! i = Some (item, Pending) ->
     exists e s' evs, exec s0 (AItem i NotOk) = Some (s', evs) /\
       queue s' = queue s0 /\ puts evs = [] /\
       tasks s' = <[i := (item, Failed e)]> (tasks s0)).
Proof.
  intros R Hfail. pose proof (run_inv query dir _ _ R) as I.
  assert (walker s <> WReturned) as Hw.
  { intros Hw. destruct Hfail as [Hp | Hd].
    - rewrite (inv_page_fail I Hp) in Hw. done.
    - pose proof (failed_not_all_done _ (inv_detail_fail I Hd)) as Hn.
      rewrite (inv_returned I Hw) in Hn. done. }
  assert (ONone ∉ puts tr) as Hputs.
  { intros Hin. by apply (inv_sentinel query _ _ I) in Hin. }
  split_and!; try done.
  - intros Hin. apply Hputs. rewrite (inv_fifo I). set_solver.
  - apply (inv_page_fail I).
  - intros Hd. destruct (inv_detail_fail I Hd) as (i & item & e & Hi).
    exists i, item, e. split; [done |]. intros np first Hl Hnp Hrun.
    unfold exec. rewrite Hrun.
    unfold get_pages_gather, get_pages_gather_raise. rewrite Hl, Hnp, Hi.
    rewrite (failed_not_all_done (tasks s)) by eauto. done.
  - by eapply records_put.
  - intros item r Hin. destruct (made_elem _ _ _ Hin) as (data & ? & ? & _). eauto.
  - intros s0 i item Hrun Hi. unfold exec. rewrite Hrun.
    unfold get_item_task. rewrite Hi. unfold _get_item.
    destruct (item_data item); eauto 10.
Qed.

(** [main] leaves its loop normally only by getting the Sentinel. *)
Lemma loop_left_on_sentinel
    (query : string) (dir : list string) (tr : list event) (s : state) :
  run (init query dir) tr s ->
  main s = MGather \/ main s = MReturned -> ONone ∈ gets tr.
Proof.
  induction 1 as [|tr s a s' evs R IH Hstep]; [by intros [? | ?] |].
  intros Hm. rewrite gets_app, elem_of_app.
  exec_cases Hstep; simpl in Hm; try (left; by apply IH); try (by destruct Hm).
  all: try (left; apply IH;
            match goal with H : main _ = _ |- _ => rewrite H end; by auto).
  all: try (right; simpl; by left).
  all: left; apply IH; by auto.
Qed.

(** A state in which no task can be resumed. *)
Lemma no_step (s : state) :
  (forall np first, walker s <> WLoop np first) ->
  queue s = [] -> main s <> MGather ->
  (forall i item, tasks s !! i <> Some (item, Pending)) ->
  (forall j item, rk_tasks s !! j <> Some (item, Pending)) ->
  forall a, exec s a = None.
Proof.
  intros Hw Hq Hm Ht Hr a.
  destruct (exec s a) as [[s' evs]|] eqn:H; [exfalso | done].
  exec_cases H; try congruence.
  all: try (by eapply Hw).
  all: try (by eapply Ht).
  all: try (by eapply Hr).
Qed.


(** C10: in one run at most one [rekognize] task is created per identifier:
    the identifiers of the tasks created are pairwise distinct, each is in
    the in-memory processed set from the step that created its task, and
    the loop body skips any later item carrying it. *)
Theorem C10_one_worker_per_identifier
    (query : string) (dir : list string) (tr : list event) (s : state) :
  run (init query dir) tr s ->
  NoDup (nasa_id <$> rekognized tr) /\
  (rk_tasks s).*1 = rekognized tr /\
  (forall item, item ∈ rekognized tr ->
     exists id, nasa_id item = Some (VStr id) /\ id ∈ img_ids s /\
       forall item', nasa_id item' = Some (VStr id) ->
         loop_body (img_ids s) item' = Ret (img_ids s, [])).
Proof.
  intros R. pose proof (run_dinv query dir _ _ R) as D.
  split_and!.
  - rewrite <- (d_rekognized D). apply (d_nodup D).
  - apply (d_rekognized D).
  - intros item Hin. rewrite <- (d_rekognized D) in Hin.
    destruct (d_rk D item Hin) as (id & Hid & Hids & _).
    exists id. split_and!; try done.
    intros item' Hid'. unfold loop_body. unfold nasa_id in Hid'. rewrite Hid'.
    by rewrite bool_decide_eq_true_2.
Qed.

(** The loop of [main] over a stream whose identifiers are all processed
    creates no task and leaves the set as it is. *)
Lemma drive_resume (ids : gset string) (stream : list (gmap string value)) :
  (forall item, item ∈ stream ->
     exists id, nasa_id item = Some (VStr id) /\ id ∈ ids) ->
  drive ids stream = Ret (ids, []).
Proof.
  induction stream as [|item rest IH]; intros H; simpl; [done |].
  destruct (H item) as (id & Hid & Hin); [by left |].
  unfold loop_body. unfold nasa_id in Hid. rewrite Hid.
  rewrite bool_decide_eq_true_2 by done.
  rewrite IH; [done |]. intros item' Hin'. apply H. by right.
Qed.

Lemma image_urls_no_size (data : list string) :
  (forall k u, k ∈ SIZE_KEYS -> u ∈ data -> contains k u = false) ->
  image_urls data = ∅.
Proof.
  intros H. apply map_eq. intros k. rewrite image_urls_lookup, lookup_empty.
  case_bool_decide as Hk; [| done].
  unfold size_url. rewrite first_with_None; [done |]. intros u Hu. by apply H.
Qed.

Lemma select_url_no_size (item : gmap string value) :
  item !! "image_urls" = Some (VDict ∅) -> select_url item = Raise RuntimeError.
Proof. unfold select_url. by intros ->. Qed.

(** C6 (as the code has it): a detail document without any usable size does
    not fail in the fetch pipeline: [_get_item] makes a record whose
    [image_urls] is empty.  Downstream, the [rekognize] task of that record
    fails with RuntimeError and leaves every other task untouched; but once
    a [rekognize] task has failed, [main] never returns normally: at the
    final join [gather] cannot return and re-raises the error, which ends
    the run. *)
Theorem C6_missing_size_fails_at_the_join
    (query : string) (dir : list string) (tr : list event) (s : state)
    (j : nat) (item : gmap string value) (e : exn) :
  run (init query dir) tr s -> rk_tasks s !! j = Some (item, Failed e) ->
  main s <> MReturned /\
  (main s = MGather ->
     exec s AMainGather = None /\
     exec s (AMainGatherRaise j)
       = Some (with_main (queue s) (MRaised e) (img_ids s) (rk_tasks s) (disk s) s, [])) /\
  (forall entry d rest data, item_data entry = d :: rest ->
     (forall k u, k ∈ SIZE_KEYS -> u ∈ data -> contains k u = false) ->
     _get_item entry (Ok data) = Ret (<["image_urls" := VDict ∅]> d) /\
     forall img labels,
       rekognize (<["image_urls" := VDict ∅]> d) img labels = Raise RuntimeError) /\
  (forall s0 j0 item0 img labels, running s0 = true ->
     rk_tasks s0 !! j0 = Some (item0, Pending) ->
     item0 !! "image_urls" = Some (VDict ∅) ->
     exec s0 (ARekognize j0 img labels)
       = Some (with_main (queue s0) (main s0) (img_ids s0)
                 (<[j0 := (item0, Failed RuntimeError)]> (rk_tasks s0)) (disk s0) s0,
               [])).
Proof.
  intros R Hj. pose proof (run_dinv query dir _ _ R) as D.
  assert (all_done (rk_tasks s) = false) as Hnd by (apply failed_not_all_done; eauto).
  split_and!.
  - intros Hm. rewrite (d_returned D Hm) in Hnd. done.
  - intros Hm. unfold exec, running, main_gather, main_gather_raise.
    by rewrite Hm, Hnd, Hj.
  - intros entry d rest data Hd Hno. unfold _get_item. rewrite Hd.
    rewrite (image_urls_no_size _ Hno). split; [done |]. intros img labels.
    unfold rekognize. rewrite select_url_no_size; [done |]. apply lookup_insert_eq.
  - intros s0 j0 item0 img labels Hrun Hj0 Hnone.
    unfold exec, rekognize_task, rekognize.
    by rewrite Hrun, Hj0, (select_url_no_size _ Hnone).
Qed.

(** ** The context manager *)

Lemma aenter_opens (a : api) (h : heap) :
  session (__aenter__ (a, h)).1 = Some (created h) /\
  created (__aenter__ (a, h)).2 = S (created h) /\
  closed (__aenter__ (a, h)).2 = closed h /\
  _entered_count (__aenter__ (a, h)).1 = _entered_count a + 1.
Proof. done. Qed.

Lemma aexit_inner (a : api) (h : heap) :
  _entered_count a <> 1 ->
  __aexit__ (a, h) = Ret (set_entered (_entered_count a - 1) a, h).
Proof.
  intros H. unfold __aexit__. simpl.
  destruct (Z.eqb_spec (_entered_count a - 1) 0); [lia | done].
Qed.

Lemma aexit_outermost (a : api) (h : heap) (id : nat) :
  _entered_count a = 1 -> session a = Some id ->
  __aexit__ (a, h)
    = Ret (set_entered 0 a, {| created := created h; closed := closed h ++ [id] |}).
Proof.
  intros H Hs. unfold __aexit__. simpl. rewrite H. simpl. by rewrite Hs.
Qed.

(** The limiter of a [NASAApi] is [AsyncLimiter(C, C / R)]. *)
Lemma init_rate_limiter (C R : Z) (a : api) :
  __init__ C R = Ret a ->
  R <> 0 /\ rate_limiter a = (C, (C, R)) /\ session a = None /\ _entered_count a = 0.
Proof.
  unfold __init__. destruct (Z.eqb_spec R 0); [done |]. by intros [= <-].
Qed.

(** C5 on the code: entering the scope of the module-level [NASA_API]
    twice creates two sessions, the second replacing the first in
    [self.session]; the inner exit closes nothing, and the outer exit
    closes the second session only: the first one is never closed. *)
Theorem C5_nested_enter_opens_a_second_session :
  exists a0 a1 h1 a2 h2 a3 h3 a4 h4,
    NASA_API = Ret a0 /\
    __aenter__ (a0, {| created := 0; closed := [] |}) = (a1, h1) /\
    session a1 = Some 0%nat /\
    __aenter__ (a1, h1) = (a2, h2) /\
    session a2 = Some 1%nat /\ created h2 = 2%nat /\ _entered_count a2 = 2 /\
    __aexit__ (a2, h2) = Ret (a3, h3) /\ closed h3 = [] /\
    __aexit__ (a3, h3) = Ret (a4, h4) /\ closed h4 = [1%nat] /\
    _entered_count a4 = 0 /\
    scopes [Enter; Enter; Exit; Exit] (a0, {| created := 0; closed := [] |})
      = Ret (a4, h4).
Proof. repeat eexists. Qed.

(** ** Examples *)

Lemma run_outcome (s0 : state) (acts : list action) :
  is_Some (exec_all s0 acts) -> run s0 (outcome s0 acts).2 (outcome s0 acts).1.
Proof.
  intros [[s tr] E]. unfold outcome. rewrite E. simpl. by apply (exec_all_run _ acts).
Qed.

(** Closed goals are settled by evaluation ([compute_done]): a run by
    evaluating its schedule, membership in a list by the position of the
    element. *)
Ltac run_demo := apply run_outcome; compute_done.

Ltac elem_at i := apply (list_elem_of_lookup_2 _ i); compute_done.

Example image_urls_large_thumb :
  image_urls ["https://x/a~large.jpg"; "https://x/a~thumb.jpg"; "https://x/metadata.json"]
  = {["large" := "https://x/a~large.jpg"; "thumb" := "https://x/a~thumb.jpg"]}.
Proof. compute_done. Qed.

Example load_img_ids_demo : load_img_ids demo_dir_A = {["A"]}.
Proof. compute_done. Qed.

Example demo_delivery :
  gets (outcome (init "q=dock" demo_dir_A) demo_acts).2
  = [OInt 3; ODict (demo_record "B"); ODict (demo_record "A");
     ODict (demo_record "C"); ONone].
Proof. compute_done. Qed.

Example demo_workers :
  rk_tasks (outcome (init "q=dock" demo_dir_A) demo_acts).1
  = [(demo_record "B", Done); (demo_record "C", Done)].
Proof. compute_done. Qed.

Example demo_disk :
  disk (outcome (init "q=dock" demo_dir_A) demo_acts).1
  = [MetaFile (VStr "B"); ImageFile (VStr "B") "jpg";
     MetaFile (VStr "C"); ImageFile (VStr "C") "jpg"].
Proof. compute_done. Qed.

Lemma C1_sentinel_once_after_tasks_and_last_witness :
  run (init "q=dock" demo_dir_A)
      (outcome (init "q=dock" demo_dir_A) demo_acts).2
      (outcome (init "q=dock" demo_dir_A) demo_acts).1 /\
  walker (outcome (init "q=dock" demo_dir_A) demo_acts).1 = WReturned /\
  exists p recs,
    puts (outcome (init "q=dock" demo_dir_A) demo_acts).2
    = OInt (total_hits p) :: (ODict <$> recs) ++ [ONone].
Proof.
  assert (run (init "q=dock" demo_dir_A)
              (outcome (init "q=dock" demo_dir_A) demo_acts).2
              (outcome (init "q=dock" demo_dir_A) demo_acts).1) as R.
  { run_demo. }
  assert (walker (outcome (init "q=dock" demo_dir_A) demo_acts).1 = WReturned) as Hw.
  { compute_done. }
  split; [exact R |]. split; [exact Hw |].
  exact (proj1 (C1_sentinel_once_after_tasks_and_last _ _ _ _ R Hw)).
Defined.

Lemma C2_total_first_witness :
  run (init "q=dock" demo_dir_A)
      (outcome (init "q=dock" demo_dir_A) demo_acts).2
      (outcome (init "q=dock" demo_dir_A) demo_acts).1 /\
  head (pages (outcome (init "q=dock" demo_dir_A) demo_acts).2) = Some demo_page1 /\
  head (puts (outcome (init "q=dock" demo_dir_A) demo_acts).2)
  = Some (OInt (total_hits demo_page1)).
Proof.
  assert (run (init "q=dock" demo_dir_A)
              (outcome (init "q=dock" demo_dir_A) demo_acts).2
              (outcome (init "q=dock" demo_dir_A) demo_acts).1) as R by run_demo.
  assert (head (pages (outcome (init "q=dock" demo_dir_A) demo_acts).2)
          = Some demo_page1) as Hp by compute_done.
  split; [exact R |]. split; [exact Hp |].
  exact (proj1 (proj2 (C2_total_first _ _ _ _ R)) _ Hp).
Defined.

Lemma C3_records_are_the_entries_witness :
  run (init "q=dock" demo_dir_A)
      (outcome (init "q=dock" demo_dir_A) demo_acts).2
      (outcome (init "q=dock" demo_dir_A) demo_acts).1 /\
  ONone ∈ gets (outcome (init "q=dock" demo_dir_A) demo_acts).2 /\
  spawned (outcome (init "q=dock" demo_dir_A) demo_acts).2
    = concat (page_items <$> pages (outcome (init "q=dock" demo_dir_A) demo_acts).2).
Proof.
  assert (run (init "q=dock" demo_dir_A)
              (outcome (init "q=dock" demo_dir_A) demo_acts).2
              (outcome (init "q=dock" demo_dir_A) demo_acts).1) as R by run_demo.
  assert (ONone ∈ gets (outcome (init "q=dock" demo_dir_A) demo_acts).2) as Hin.
  { elem_at 4%nat. }
  split; [exact R |]. split; [exact Hin |].
  exact (proj1 (C3_records_are_the_entries _ _ _ _ R Hin)).
Defined.

Example demo_fail_details :
  details (outcome (init "q=dock" demo_dir_A) demo_fail_acts).2
  = [(demo_entry "A", NotOk); (demo_entry "B", Ok (demo_manifest "B"));
     (demo_entry "C", Ok (demo_manifest "C"))].
Proof. compute_done. Qed.

Example demo_fail_state :
  tasks (outcome (init "q=dock" demo_dir_A) demo_fail_acts).1
  = [(demo_entry "A", Failed HttpError); (demo_entry "B", Done); (demo_entry "C", Done)] /\
  walker (outcome (init "q=dock" demo_dir_A) demo_fail_acts).1 = WLoop None false /\
  puts (outcome (init "q=dock" demo_dir_A) demo_fail_acts).2
  = [OInt 3; ODict (demo_record "B"); ODict (demo_record "C")].
Proof. split_and!; compute_done. Qed.

Lemma failure_never_sentinel_witness :
  run (init "q=dock" demo_dir_A)
      (outcome (init "q=dock" demo_dir_A) demo_fail_acts).2
      (outcome (init "q=dock" demo_dir_A) demo_fail_acts).1 /\
  ((exists url, EPage url NotOk ∈ (outcome (init "q=dock" demo_dir_A) demo_fail_acts).2) \/
   (exists item, EDetail item NotOk ∈ (outcome (init "q=dock" demo_dir_A) demo_fail_acts).2)) /\
  walker (outcome (init "q=dock" demo_dir_A) demo_fail_acts).1 <> WReturned.
Proof.
  assert (run (init "q=dock" demo_dir_A)
              (outcome (init "q=dock" demo_dir_A) demo_fail_acts).2
              (outcome (init "q=dock" demo_dir_A) demo_fail_acts).1) as R by run_demo.
  assert ((exists url, EPage url NotOk ∈ (outcome (init "q=dock" demo_dir_A) demo_fail_acts).2) \/
          (exists item, EDetail item NotOk ∈ (outcome (init "q=dock" demo_dir_A) demo_fail_acts).2))
    as Hfail.
  { right. exists (demo_entry "A"). elem_at 5%nat. }
  split; [exact R |]. split; [exact Hfail |].
  exact (proj1 (failure_never_sentinel _ _ _ _ R Hfail)).
Defined.

(** C4 on the code: the detail fetch of A is refused, those of B and C
    succeed.  [gather] re-raises the error in [_get_pages], which ends with
    it without putting the Sentinel; but nothing awaits the task of
    [_get_pages], so the error goes no further: [main] receives B and C,
    their [rekognize] tasks write their files, and [main] is then still
    inside its [async for], waiting on the empty queue, while no task is
    left that could run.  The session is not ended by the error, it is
    blocked.  The same happens when the first page is refused: [main] stays
    inside [search]. *)
Theorem C4_failed_fetch_blocks_the_session :
  (run (init "q=dock" demo_dir_A)
       (outcome (init "q=dock" demo_dir_A) demo_blocked_acts).2
       (outcome (init "q=dock" demo_dir_A) demo_blocked_acts).1 /\
   (outcome (init "q=dock" demo_dir_A) demo_blocked_acts).2
   = [EPage (search_url "q=dock") (Ok demo_page1); EPut (OInt 3);
      ESpawn (demo_entry "A"); ESpawn (demo_entry "B"); EGet (OInt 3);
      EDetail (demo_entry "A") NotOk;
      EDetail (demo_entry "B") (Ok (demo_manifest "B")); EPut (ODict (demo_record "B"));
      EPage "https://images-api.nasa.gov/search?q=dock&page=2" (Ok demo_page2);
      ESpawn (demo_entry "C");
      EDetail (demo_entry "C") (Ok (demo_manifest "C")); EPut (ODict (demo_record "C"));
      EGet (ODict (demo_record "B")); ERekognize (demo_record "B");
      EGet (ODict (demo_record "C")); ERekognize (demo_record "C")] /\
   tasks (outcome (init "q=dock" demo_dir_A) demo_blocked_acts).1
   = [(demo_entry "A", Failed HttpError); (demo_entry "B", Done);
      (demo_entry "C", Done)] /\
   walker (outcome (init "q=dock" demo_dir_A) demo_blocked_acts).1
   = WRaised HttpError /\
   main (outcome (init "q=dock" demo_dir_A) demo_blocked_acts).1 = MIter (OInt 3) /\
   running (outcome (init "q=dock" demo_dir_A) demo_blocked_acts).1 = true /\
   queue (outcome (init "q=dock" demo_dir_A) demo_blocked_acts).1 = [] /\
   rk_tasks (outcome (init "q=dock" demo_dir_A) demo_blocked_acts).1
   = [(demo_record "B", Done); (demo_record "C", Done)] /\
   forall a, exec (outcome (init "q=dock" demo_dir_A) demo_blocked_acts).1 a = None) /\
  (run (init "q=dock" demo_dir_A)
       (outcome (init "q=dock" demo_dir_A) [APage NotOk]).2
       (outcome (init "q=dock" demo_dir_A) [APage NotOk]).1 /\
   (outcome (init "q=dock" demo_dir_A) [APage NotOk]).2
   = [EPage (search_url "q=dock") NotOk] /\
   walker (outcome (init "q=dock" demo_dir_A) [APage NotOk]).1 = WRaised HttpError /\
   main (outcome (init "q=dock" demo_dir_A) [APage NotOk]).1 = MSearch /\
   running (outcome (init "q=dock" demo_dir_A) [APage NotOk]).1 = true /\
   forall a, exec (outcome (init "q=dock" demo_dir_A) [APage NotOk]).1 a = None).
Proof.
  split.
  - assert (tasks (outcome (init "q=dock" demo_dir_A) demo_blocked_acts).1
            = [(demo_entry "A", Failed HttpError); (demo_entry "B", Done);
               (demo_entry "C", Done)]) as Ht by compute_done.
    assert (rk_tasks (outcome (init "q=dock" demo_dir_A) demo_blocked_acts).1
            = [(demo_record "B", Done); (demo_record "C", Done)]) as Hr by compute_done.
    assert (walker (outcome (init "q=dock" demo_dir_A) demo_blocked_acts).1
            = WRaised HttpError) as Hw by compute_done.
    assert (main (outcome (init "q=dock" demo_dir_A) demo_blocked_acts).1
            = MIter (OInt 3)) as Hm by compute_done.
    assert (queue (outcome (init "q=dock" demo_dir_A) demo_blocked_acts).1 = [])
      as Hq by compute_done.
    split; [run_demo |]. split; [compute_done |].
    split; [exact Ht |]. split; [exact Hw |]. split; [exact Hm |].
    split; [compute_done |]. split; [exact Hq |]. split; [exact Hr |].
    apply no_step.
    + intros np first. rewrite Hw. discriminate.
    + exact Hq.
    + rewrite Hm. discriminate.
    + intros i item. rewrite Ht. by destruct i as [|[|[|i]]].
    + intros j item. rewrite Hr. by destruct j as [|[|j]].
  - assert (walker (outcome (init "q=dock" demo_dir_A) [APage NotOk]).1
            = WRaised HttpError) as Hw by compute_done.
    assert (main (outcome (init "q=dock" demo_dir_A) [APage NotOk]).1 = MSearch)
      as Hm by compute_done.
    split; [run_demo |]. split; [compute_done |].
    split; [exact Hw |]. split; [exact Hm |]. split; [compute_done |].
    apply no_step.
    + intros np first. rewrite Hw. discriminate.
    + compute_done.
    + rewrite Hm. discriminate.
    + intros i item.
      assert (tasks (outcome (init "q=dock" demo_dir_A) [APage NotOk]).1 = [])
        as -> by compute_done.
      by destruct i.
    + intros j item.
      assert (rk_tasks (outcome (init "q=dock" demo_dir_A) [APage NotOk]).1 = [])
        as -> by compute_done.
      by destruct j.
Qed.


Example demo_twice_workers :
  gets (outcome (init "q=dock" []) demo_twice_acts).2
  = [OInt 2; ODict (demo_record "A"); ODict (demo_record "A"); ONone] /\
  rekognized (outcome (init "q=dock" []) demo_twice_acts).2 = [demo_record "A"].
Proof. split_and!; compute_done. Qed.

Lemma C10_one_worker_per_identifier_witness :
  run (init "q=dock" [])
      (outcome (init "q=dock" []) demo_twice_acts).2
      (outcome (init "q=dock" []) demo_twice_acts).1 /\
  NoDup (nasa_id <$> rekognized (outcome (init "q=dock" []) demo_twice_acts).2).
Proof.
  assert (run (init "q=dock" [])
              (outcome (init "q=dock" []) demo_twice_acts).2
              (outcome (init "q=dock" []) demo_twice_acts).1) as R by run_demo.
  split; [exact R |].
  exact (proj1 (C10_one_worker_per_identifier _ _ _ _ R)).
Defined.

Example demo_no_size_state :
  main (outcome (init "q=dock" []) demo_no_size_acts).1 = MGather /\
  rk_tasks (outcome (init "q=dock" []) demo_no_size_acts).1
  = [(demo_record_no_size, Failed RuntimeError); (demo_record "B", Pending)].
Proof. split_and!; compute_done. Qed.

Lemma C6_missing_size_fails_at_the_join_witness :
  run (init "q=dock" [])
      (outcome (init "q=dock" []) demo_no_size_acts).2
      (outcome (init "q=dock" []) demo_no_size_acts).1 /\
  rk_tasks (outcome (init "q=dock" []) demo_no_size_acts).1 !! 0%nat
    = Some (demo_record_no_size, Failed RuntimeError) /\
  main (outcome (init "q=dock" []) demo_no_size_acts).1 <> MReturned.
Proof.
  assert (run (init "q=dock" [])
              (outcome (init "q=dock" []) demo_no_size_acts).2
              (outcome (init "q=dock" []) demo_no_size_acts).1) as R by run_demo.
  assert (rk_tasks (outcome (init "q=dock" []) demo_no_size_acts).1 !! 0%nat
          = Some (demo_record_no_size, Failed RuntimeError)) as Hj.
  { compute_done. }
  split; [exact R |]. split; [exact Hj |].
  exact (proj1 (C6_missing_size_fails_at_the_join _ _ _ _ _ _ _ R Hj)).
Defined.

(** C6 as stated fails: with every response a success, the record of A has
    no usable size, its [rekognize] task fails, and at the join [main] ends
    with that error while the task of B has not run; the loop is torn down
    and no further step exists, so B is never processed. *)
Lemma C6_missing_size_aborts_the_other_items :
  run (init "q=dock" [])
      (outcome (init "q=dock" []) (demo_no_size_acts ++ [AMainGatherRaise 0])).2
      (outcome (init "q=dock" []) (demo_no_size_acts ++ [AMainGatherRaise 0])).1 /\
  (outcome (init "q=dock" []) (demo_no_size_acts ++ [AMainGatherRaise 0])).2
  = [EPage (search_url "q=dock") (Ok demo_page_AB); EPut (OInt 2);
     ESpawn (demo_entry "A"); ESpawn (demo_entry "B"); EGet (OInt 2);
     EDetail (demo_entry "A") (Ok demo_no_size); EPut (ODict demo_record_no_size);
     EDetail (demo_entry "B") (Ok (demo_manifest "B")); EPut (ODict (demo_record "B"));
     EPut ONone;
     EGet (ODict demo_record_no_size); ERekognize demo_record_no_size;
     EGet (ODict (demo_record "B")); ERekognize (demo_record "B");
     EGet ONone; EStop] /\
  main (outcome (init "q=dock" []) (demo_no_size_acts ++ [AMainGatherRaise 0])).1
  = MRaised RuntimeError /\
  rk_tasks (outcome (init "q=dock" []) (demo_no_size_acts ++ [AMainGatherRaise 0])).1
  = [(demo_record_no_size, Failed RuntimeError); (demo_record "B", Pending)] /\
  select_url (demo_record "B")
  = Ret "https://images-assets.nasa.gov/image/B/B~orig.jpg" /\
  disk (outcome (init "q=dock" []) (demo_no_size_acts ++ [AMainGatherRaise 0])).1 = [] /\
  forall a,
    exec (outcome (init "q=dock" []) (demo_no_size_acts ++ [AMainGatherRaise 0])).1 a
    = None.
Proof.
  split; [run_demo |].
  split; [compute_done |].
  split; [compute_done |].
  split; [compute_done |].
  split; [compute_done |].
  split; [compute_done |].
  intros a. unfold exec.
  assert (running (outcome (init "q=dock" []) (demo_no_size_acts ++ [AMainGatherRaise 0])).1
          = false) as -> by compute_done.
  reflexivity.
Qed.
